(** * dotenvx: the resolution engine (lib/services/run.js) and helpers/truncate.js

    A shallow embedding of the [Run] service and of the [truncate] helper,
    followed by the properties of the specification that concern them.

    Conventions of the embedding.
    - A JavaScript string is the list of its UTF-16 code units ([jsstring]);
      [length], [slice], [split] and [trim] work on code units as in the
      language.  [js "..."] turns an ASCII literal into such a list.
    - A thrown [Error] is a record with its [code] and [message]; a call that
      may throw returns [Res A].
    - A plain object with string values ([Obj]) is the list of its own
      properties in insertion order, each key once ([Object.keys] order for
      keys that are not array indices).
    - [process.env] and its clones are mutable objects that several names may
      share: they live in a [Heap] and are passed by location; a location
      that holds nothing reads as the empty object.
    - The helpers that [run.js] requires and the Node primitives it calls are
      the fields of a [World]; the file system does not change during a run. *)

From Stdlib Require Import ZArith NArith Ascii String Lia.
From stdpp Require Import strings gmap list.

Open Scope Z_scope.
Open Scope nat_scope.

(* ------------------------------------------------------------------------- *)
(** ** JavaScript strings *)

Abbreviation jsstring := (list N).

Fixpoint js (s : string) : jsstring :=
  match s with
  | EmptyString => []
  | String a s' => N_of_ascii a :: js s'
  end.

Arguments js : simpl never.

(** [String.prototype.startsWith]. *)
Fixpoint startsWith (s p : jsstring) : bool :=
  match p, s with
  | [], _ => true
  | _ :: _, [] => false
  | c :: p', d :: s' => if decide (c = d) then startsWith s' p' else false
  end.

(** [String.prototype.split] with a separator of one code unit: the result
    always has at least one element. *)
Fixpoint split (sep : N) (s : jsstring) : list jsstring :=
  match s with
  | [] => [[]]
  | c :: s' =>
      if decide (c = sep) then [] :: split sep s'
      else match split sep s' with
           | [] => [[c]]
           | w :: ws => (c :: w) :: ws
           end
  end.

(** WhiteSpace and LineTerminator code units of ECMAScript, the ones
    [String.prototype.trim] strips. *)
Definition isWhiteSpace (c : N) : bool :=
  match c with
  | 9%N | 10%N | 11%N | 12%N | 13%N | 32%N | 160%N | 5760%N
  | 8192%N | 8193%N | 8194%N | 8195%N | 8196%N | 8197%N | 8198%N
  | 8199%N | 8200%N | 8201%N | 8202%N
  | 8232%N | 8233%N | 8239%N | 8287%N | 12288%N | 65279%N => true
  | _ => false
  end.

Fixpoint trimStart (s : jsstring) : jsstring :=
  match s with
  | [] => []
  | c :: s' => if isWhiteSpace c then trimStart s' else s
  end.

Definition trimEnd (s : jsstring) : jsstring := rev (trimStart (rev s)).

Definition trim (s : jsstring) : jsstring := trimEnd (trimStart s).

(** [String.prototype.slice] on integer arguments: a negative index counts
    from the end, and both indices are clamped to the string. *)
Definition slice_index (len i : Z) : Z :=
  if (i <? 0)%Z then Z.max (len + i) 0 else Z.min i len.

Definition slice (s : jsstring) (start end_ : Z) : jsstring :=
  let len := Z.of_nat (length s) in
  let from := slice_index len start in
  let to := slice_index len end_ in
  take (Z.to_nat (to - from)) (drop (Z.to_nat from) s).

(* ------------------------------------------------------------------------- *)
(** ** helpers/truncate.js *)

(** The ellipsis, U+2026. *)
Definition ELLIPSIS : jsstring := [8230%N].

(** [truncate (str, showChar = 7)]; [None] is the omitted argument. *)
Definition truncate (str : jsstring) (showChar : option Z) : jsstring :=
  let showChar := default 7%Z showChar in
  let visiblePart := slice str 0 showChar in
  visiblePart ++ ELLIPSIS.

(* ------------------------------------------------------------------------- *)
(** ** Errors, objects and the heap *)

Record JsError := mkError { code : option jsstring; message : jsstring }.

Inductive Res (A : Type) : Type :=
| Ok (a : A)
| Throw (e : JsError).
Arguments Ok {A} a.
Arguments Throw {A} e.

Definition isOk {A} (r : Res A) : bool :=
  match r with Ok _ => true | Throw _ => false end.

Abbreviation Obj := (list (jsstring * jsstring)).

(** [Object.keys (o)]. *)
Definition obj_keys (o : Obj) : list jsstring := o.*1.

(** [o[k]]; [None] is [undefined]. *)
Fixpoint obj_get (o : Obj) (k : jsstring) : option jsstring :=
  match o with
  | [] => None
  | (k', v) :: o' => if decide (k' = k) then Some v else obj_get o' k
  end.

(** [o[k] = v]: an own key keeps its place, a new one goes last. *)
Fixpoint obj_set (o : Obj) (k v : jsstring) : Obj :=
  match o with
  | [] => [(k, v)]
  | (k', v') :: o' =>
      if decide (k' = k) then (k, v) :: o' else (k', v') :: obj_set o' k v
  end.

(** A JavaScript [Set] of strings: insertion order, no duplicates. *)
Definition set_add (x : jsstring) (s : list jsstring) : list jsstring :=
  if decide (x ∈ s) then s else s ++ [x].

Abbreviation loc := nat.
Abbreviation Heap := (gmap nat Obj).

(** Reading and writing a property of the object at a location. *)
Definition heap_get (h : Heap) (l : loc) (k : jsstring) : option jsstring :=
  obj_get (h !!! l) k.

Definition heap_set (h : Heap) (l : loc) (k v : jsstring) : Heap :=
  <[l := obj_set (h !!! l) k v]> h.

(* ------------------------------------------------------------------------- *)
(** ** Constants of run.js *)

Record Env := mkEnv { type : jsstring; value : jsstring }.

Definition ENCODING : jsstring := js "utf8".
Definition TYPE_ENV : jsstring := js "env".
Definition TYPE_ENV_FILE : jsstring := js "envFile".
Definition TYPE_ENV_VAULT_FILE : jsstring := js "envVaultFile".
Definition DEFAULT_ENVS : list Env := [mkEnv TYPE_ENV_FILE (js ".env")].
Definition DEFAULT_ENV_VAULTS : list Env :=
  [mkEnv TYPE_ENV_VAULT_FILE (js ".env.vault")].

(* ------------------------------------------------------------------------- *)
(** ** What the helpers hand back *)

(** [{ parsed, processEnv, warnings }] of parseDecryptEvalExpand; the
    [processEnv] it hands back is an object, given by its location. *)
Record PDEEOut := mkPDEEOut {
  out_parsed : Obj;
  out_processEnv : loc;
  out_warnings : list JsError
}.

(** [{ injected, preExisted }] of inject. *)
Record InjectOut := mkInjectOut { injected : Obj; preExisted : Obj }.

(** Modelled from the spec: helpers/inject.js is outside the sources at hand.
    Section 4.1 gives its contract, [inject (targetNamespace, resolvedMapping,
    overwrite, ambientNamespace)]: for each key of the mapping, when the key is
    absent from the ambient namespace, or present with [overwrite = true], the
    key is set on the target namespace and recorded under [injected];
    otherwise the target is left alone and the existing (ambient) value is
    recorded under [preExisted].  It has no error case.  The two namespaces
    are read and written through the heap, so that they may be one object. *)
Definition inject_step (target : loc) (overwrite : bool) (ambient : loc)
    (acc : Heap * InjectOut) (kv : jsstring * jsstring) : Heap * InjectOut :=
  let '(h, io) := acc in
  let '(key, v) := kv in
  match heap_get h ambient key with
  | Some existing =>
      if overwrite
      then (heap_set h target key v,
            mkInjectOut (obj_set (injected io) key v) (preExisted io))
      else (h, mkInjectOut (injected io) (obj_set (preExisted io) key existing))
  | None =>
      (heap_set h target key v,
       mkInjectOut (obj_set (injected io) key v) (preExisted io))
  end.

Arguments inject_step : simpl never.

Definition inject_spec (h : Heap) (target : loc) (parsed : Obj)
    (overwrite : bool) (ambient : loc) : Heap * Res InjectOut :=
  let '(h', io) :=
    foldl (inject_step target overwrite ambient) (h, mkInjectOut [] []) parsed in
  (h', Ok io).

(* ------------------------------------------------------------------------- *)
(** ** The world around run.js *)

(** The modules [run.js] requires and the Node calls it makes.  Each one that
    can throw returns a [Res]; the two helpers that receive [process.env]
    also receive the heap and hand it back. *)
Record World := mkWorld {
  path_resolve : jsstring → jsstring;
  fs_existsSync : jsstring → bool;
  fs_readFileSync : jsstring → jsstring → Res jsstring;
  detectEncoding : jsstring → Res jsstring;
  dotenv_parse : jsstring → Obj;
  parseDecryptEvalExpand :
    Heap → option jsstring → option jsstring → loc → Heap * Res PDEEOut;
  inject : Heap → loc → Obj → bool → loc → Heap * Res InjectOut;
  decrypt : jsstring → jsstring → Res jsstring;
  parseEnvironmentFromDotenvKey : jsstring → Res jsstring;
  toUpperCase : jsstring → jsstring;
  guessPrivateKeyFilename : jsstring → jsstring;
  guessPrivateKeyName : jsstring → Res jsstring;
  (** [require ('@dotenvx/dotenvx-pro').keypair (envFilepath, name)] *)
  pro_keypair : jsstring → jsstring → Res (option jsstring);
  (** stdout of [dotenvx-pro keypair name -f envFilepath] *)
  cli_keypair : jsstring → jsstring → Res jsstring;
  (** [new Keypair (envFilepath, name).run ()] *)
  local_keypair : jsstring → jsstring → Res (option jsstring)
}.

(* ------------------------------------------------------------------------- *)
(** ** Records and the state of a Run *)

(** One element of [processedEnvs]; a field that was never assigned is
    [None]. *)
Record Row := mkRow {
  row_type : jsstring;
  row_string : option jsstring;
  row_filepath : option jsstring;
  row_parsed : option Obj;
  row_warnings : option (list JsError);
  row_injected : option Obj;
  row_preExisted : option Obj;
  row_error : option JsError
}.

Definition new_row (t : jsstring) (s f : option jsstring) : Row :=
  mkRow t s f None None None None None.

Definition row_set_parsed (row : Row) (p : Obj) (w : list JsError) : Row :=
  mkRow (row_type row) (row_string row) (row_filepath row) (Some p) (Some w)
        (row_injected row) (row_preExisted row) (row_error row).

Definition row_set_injected (row : Row) (i p : Obj) : Row :=
  mkRow (row_type row) (row_string row) (row_filepath row) (row_parsed row)
        (row_warnings row) (Some i) (Some p) (row_error row).

Definition row_set_error (row : Row) (e : JsError) : Row :=
  mkRow (row_type row) (row_string row) (row_filepath row) (row_parsed row)
        (row_warnings row) (row_injected row) (row_preExisted row) (Some e).

(** The fields of [this]. *)
Record Run := mkRun {
  dotenvPrivateKeyNames : list jsstring;
  envs : list Env;
  overload : bool;
  DOTENV_KEY : jsstring;
  processEnv : loc;
  processedEnvs : list Row;
  readableFilepaths : list jsstring;
  readableStrings : list jsstring;
  uniqueInjectedKeys : list jsstring
}.

Definition push_processedEnv (row : Row) (r : Run) : Run :=
  mkRun (dotenvPrivateKeyNames r) (envs r) (overload r) (DOTENV_KEY r)
        (processEnv r) (processedEnvs r ++ [row]) (readableFilepaths r)
        (readableStrings r) (uniqueInjectedKeys r).

Definition add_readableFilepath (p : jsstring) (r : Run) : Run :=
  mkRun (dotenvPrivateKeyNames r) (envs r) (overload r) (DOTENV_KEY r)
        (processEnv r) (processedEnvs r) (set_add p (readableFilepaths r))
        (readableStrings r) (uniqueInjectedKeys r).

Definition add_readableString (s : jsstring) (r : Run) : Run :=
  mkRun (dotenvPrivateKeyNames r) (envs r) (overload r) (DOTENV_KEY r)
        (processEnv r) (processedEnvs r) (readableFilepaths r)
        (set_add s (readableStrings r)) (uniqueInjectedKeys r).

Definition add_uniqueInjectedKey (r : Run) (key : jsstring) : Run :=
  mkRun (dotenvPrivateKeyNames r) (envs r) (overload r) (DOTENV_KEY r)
        (processEnv r) (processedEnvs r) (readableFilepaths r)
        (readableStrings r) (set_add key (uniqueInjectedKeys r)).

(** What [run ()] returns. *)
Record Report := mkReport {
  rep_processedEnvs : list Row;
  rep_readableStrings : list jsstring;
  rep_readableFilepaths : list jsstring;
  rep_uniqueInjectedKeys : list jsstring
}.

(** A method of [Run]: it may throw, and it leaves [this] and the heap as
    they are at that point. *)
Abbreviation Outcome A := (Res A * (Run * Heap))%type.

(* ------------------------------------------------------------------------- *)
(** ** The methods of Run *)

Section RunMethods.
Context (W : World).

Definition _inject (h : Heap) (clonedProcessEnv : loc) (parsed : Obj)
    (overload : bool) (processEnv : loc) : Heap * Res InjectOut :=
  inject W h clonedProcessEnv parsed overload processEnv.

Definition _determineEnvsFromDotenvPrivateKey (names : list jsstring) : list Env :=
  foldl (λ envs privateKeyName,
           let filename := guessPrivateKeyFilename W privateKeyName in
           envs ++ [mkEnv TYPE_ENV_FILE filename])
        [] names.

(** The body of the [for] of [_determineEnvs], on one [env]. *)
Definition fileAlreadySpecified_step (DOTENV_KEY : jsstring)
    (fileAlreadySpecified : bool) (env : Env) : bool :=
  let fileAlreadySpecified :=
    if (0 <? length DOTENV_KEY) && bool_decide (type env = TYPE_ENV_VAULT_FILE)
    then true else fileAlreadySpecified in
  let fileAlreadySpecified :=
    if (length DOTENV_KEY <=? 0) && bool_decide (type env = TYPE_ENV_FILE)
    then true else fileAlreadySpecified in
  fileAlreadySpecified.

(** [this.dotenvPrivateKeyNames] is the first argument. *)
Definition _determineEnvs (names : list jsstring) (envs : list Env)
    (DOTENV_KEY : jsstring) : list Env :=
  if length envs <=? 0 then
    if 0 <? length names then _determineEnvsFromDotenvPrivateKey names
    else if 0 <? length DOTENV_KEY then DEFAULT_ENV_VAULTS
    else DEFAULT_ENVS
  else
    let fileAlreadySpecified :=
      foldl (fileAlreadySpecified_step DOTENV_KEY) false envs in
    if fileAlreadySpecified then envs
    else if 0 <? length DOTENV_KEY then DEFAULT_ENV_VAULTS ++ envs
    else DEFAULT_ENVS ++ envs.

(** [new Run (envs, overload, DOTENV_KEY, processEnv)]. *)
Definition new_Run (envs : list Env) (overload : bool) (DOTENV_KEY : jsstring)
    (processEnv : loc) (h : Heap) : Run :=
  let names :=
    List.filter (λ key, startsWith key (js "DOTENV_PRIVATE_KEY"))
                (obj_keys (h !!! processEnv)) in
  mkRun names (_determineEnvs names envs DOTENV_KEY) overload DOTENV_KEY
        processEnv [] [] [] [].

Definition _dotenvKeys (r : Run) : list jsstring := split 44%N (DOTENV_KEY r).

Definition _parsedVault (filepath : jsstring) : Res Obj :=
  match fs_readFileSync W filepath ENCODING with
  | Throw e => Throw e
  | Ok src => Ok (dotenv_parse W src)
  end.

(** [!ciphertext] holds of [undefined] and of the empty string. *)
Definition _decrypted (dotenvKey : jsstring) (parsedVault : Obj) : Res jsstring :=
  match parseEnvironmentFromDotenvKey W dotenvKey with
  | Throw e => Throw e
  | Ok environment =>
      let environmentKey := js "DOTENV_VAULT_" ++ toUpperCase W environment in
      match obj_get parsedVault environmentKey with
      | Some (c :: ciphertext) => decrypt W (c :: ciphertext) dotenvKey
      | _ =>
          Throw (mkError (Some (js "NOT_FOUND_DOTENV_ENVIRONMENT"))
                   (js "NOT_FOUND_DOTENV_ENVIRONMENT: cannot locate environment "
                    ++ environmentKey ++ js " in your .env.vault file"))
      end
  end.

Definition _determinePrivateKey (envFilepath : jsstring) : Res (option jsstring) :=
  match guessPrivateKeyName W envFilepath with
  | Throw e => Throw e
  | Ok privateKeyName =>
      match pro_keypair W envFilepath privateKeyName with
      | Ok privateKey => Ok privateKey
      | Throw _e =>
          match cli_keypair W privateKeyName envFilepath with
          | Ok stdout => Ok (Some (trim stdout))
          | Throw _e => local_keypair W envFilepath privateKeyName
          end
      end
  end.

(** The [for] over [dotenvKeys] of [_injectEnvVaultFile], from index [i] on,
    [todo] being the keys from [i]; [Ok None] is the loop running off its end
    with [decrypted] still undefined. *)
Fixpoint decrypt_loop (dotenvKeys : list jsstring) (parsedVault : Obj)
    (i : nat) (todo : list jsstring) : Res (option jsstring) :=
  match todo with
  | [] => Ok None
  | key :: todo' =>
      let dotenvKey := trim key in
      match _decrypted dotenvKey parsedVault with
      | Ok decrypted => Ok (Some decrypted)
      | Throw error =>
          if length dotenvKeys <=? i + 1 then Throw error
          else decrypt_loop dotenvKeys parsedVault (S i) todo'
      end
  end.

(** The statements the three handlers share: inject the parsed values, set
    [row.injected] and [row.preExisted], add the injected keys to
    [this.uniqueInjectedKeys]. *)
Definition inject_and_track (out : PDEEOut) (row : Row) (r : Run) (h : Heap)
    : Res unit * (Row * Run * Heap) :=
  match _inject h (out_processEnv out) (out_parsed out) (overload r) (processEnv r) with
  | (h, Throw e) => (Throw e, (row, r, h))
  | (h, Ok io) =>
      let row := row_set_injected row (injected io) (preExisted io) in
      let r := foldl add_uniqueInjectedKey r (obj_keys (injected io)) in
      (Ok tt, (row, r, h))
  end.

Definition _injectEnv (env : jsstring) (r : Run) (h : Heap) : Outcome unit :=
  let row := new_row TYPE_ENV (Some env) None in
  let '(tried, (row, r, h)) :=
    match parseDecryptEvalExpand W h (Some env) None (processEnv r) with
    | (h, Throw e) => (Throw e, (row, r, h))
    | (h, Ok out) =>
        let row := row_set_parsed row (out_parsed out) (out_warnings out) in
        let r := add_readableString env r in
        inject_and_track out row r h
    end in
  let row :=
    match tried with
    | Ok _ => row
    | Throw e => row_set_error row e
    end in
  (Ok tt, (push_processedEnv row r, h)).

Definition MISSING_ENV_FILE (envFilepath filepath : jsstring) : JsError :=
  mkError (Some (js "MISSING_ENV_FILE"))
          (js "missing " ++ envFilepath ++ js " file (" ++ filepath ++ js ")").

Definition _injectEnvFile (envFilepath : jsstring) (r : Run) (h : Heap)
    : Outcome unit :=
  let row := new_row TYPE_ENV_FILE None (Some envFilepath) in
  let filepath := path_resolve W envFilepath in
  let '(tried, (row, r, h)) :=
    match detectEncoding W filepath with
    | Throw e => (Throw e, (row, r, h))
    | Ok encoding =>
    match fs_readFileSync W filepath encoding with
    | Throw e => (Throw e, (row, r, h))
    | Ok src =>
    let r := add_readableFilepath envFilepath r in
    match _determinePrivateKey envFilepath with
    | Throw e => (Throw e, (row, r, h))
    | Ok privateKey =>
    match parseDecryptEvalExpand W h (Some src) privateKey (processEnv r) with
    | (h, Throw e) => (Throw e, (row, r, h))
    | (h, Ok out) =>
        let row := row_set_parsed row (out_parsed out) (out_warnings out) in
        inject_and_track out row r h
    end end end end in
  let row :=
    match tried with
    | Ok _ => row
    | Throw e =>
        if decide (code e = Some (js "ENOENT"))
        then row_set_error row (MISSING_ENV_FILE envFilepath filepath)
        else row_set_error row e
    end in
  (Ok tt, (push_processedEnv row r, h)).

Definition MISSING_ENV_VAULT_FILE (filepath : jsstring) : JsError :=
  mkError (Some (js "MISSING_ENV_VAULT_FILE"))
          (js "you set DOTENV_KEY but your .env.vault file is missing: "
           ++ filepath).

Definition MISSING_DOTENV_KEY (DOTENV_KEY : jsstring) : JsError :=
  mkError (Some (js "MISSING_DOTENV_KEY"))
          (js "your DOTENV_KEY appears to be blank: '" ++ DOTENV_KEY ++ js "'").

(** Lines 169-186 of [_injectEnvVaultFile]: parse and inject what was
    decrypted, then push the row. *)
Definition vault_parse_and_inject (decrypted : option jsstring) (row : Row)
    (r : Run) (h : Heap) : Outcome unit :=
  let '(tried, (row, r, h)) :=
    match parseDecryptEvalExpand W h decrypted None (processEnv r) with
    | (h, Throw e) => (Throw e, (row, r, h))
    | (h, Ok out) =>
        let row := row_set_parsed row (out_parsed out) (out_warnings out) in
        inject_and_track out row r h
    end in
  let row :=
    match tried with
    | Ok _ => row
    | Throw e => row_set_error row e
    end in
  (Ok tt, (push_processedEnv row r, h)).

(** Lines 150-186: what follows the two presence checks. *)
Definition vault_decrypt_and_inject (filepath : jsstring) (row : Row)
    (r : Run) (h : Heap) : Outcome unit :=
  let dotenvKeys := _dotenvKeys r in
  match _parsedVault filepath with
  | Throw e => (Throw e, (r, h))
  | Ok parsedVault =>
      match decrypt_loop dotenvKeys parsedVault 0 dotenvKeys with
      | Throw error => (Throw error, (r, h))
      | Ok decrypted => vault_parse_and_inject decrypted row r h
      end
  end.

Definition _injectEnvVaultFile (envVaultFilepath : jsstring) (r : Run) (h : Heap)
    : Outcome unit :=
  let row := new_row TYPE_ENV_VAULT_FILE None (Some envVaultFilepath) in
  let filepath := path_resolve W envVaultFilepath in
  let r := add_readableFilepath envVaultFilepath r in
  if negb (fs_existsSync W filepath) then
    (Throw (MISSING_ENV_VAULT_FILE filepath), (r, h))
  else if length (DOTENV_KEY r) <? 1 then
    (Throw (MISSING_DOTENV_KEY (DOTENV_KEY r)), (r, h))
  else vault_decrypt_and_inject filepath row r h.

(** The body of the [for] of [run], on one [env]. *)
Definition run_env (env : Env) (r : Run) (h : Heap) : Outcome unit :=
  if decide (type env = TYPE_ENV_VAULT_FILE) then _injectEnvVaultFile (value env) r h
  else if decide (type env = TYPE_ENV_FILE) then _injectEnvFile (value env) r h
  else if decide (type env = TYPE_ENV) then _injectEnv (value env) r h
  else (Ok tt, (r, h)).

Fixpoint run_loop (todo : list Env) (r : Run) (h : Heap) : Outcome unit :=
  match todo with
  | [] => (Ok tt, (r, h))
  | env :: todo' =>
      match run_env env r h with
      | (Ok _, (r, h)) => run_loop todo' r h
      | (Throw e, (r, h)) => (Throw e, (r, h))
      end
  end.

Definition report_of (r : Run) : Report :=
  mkReport (processedEnvs r) (readableStrings r) (readableFilepaths r)
           (uniqueInjectedKeys r).

Definition run (r : Run) (h : Heap) : Outcome Report :=
  match run_loop (envs r) r h with
  | (Ok _, (r, h)) => (Ok (report_of r), (r, h))
  | (Throw e, (r, h)) => (Throw e, (r, h))
  end.

End RunMethods.

(* ------------------------------------------------------------------------- *)
(** ** The rotation of keys, in the words of the specification *)

(** "Attempt decryption with each key in order; the first key that succeeds
    wins; if all keys fail, the error from the last attempt propagates."
    [Ok None] stands for an empty list of keys, where nothing is attempted. *)
Fixpoint first_success (attempt : jsstring → Res jsstring)
    (keys : list jsstring) : Res (option jsstring) :=
  match keys with
  | [] => Ok None
  | key :: keys' =>
      match attempt key with
      | Ok plaintext => Ok (Some plaintext)
      | Throw e =>
          match keys' with
          | [] => Throw e
          | _ :: _ => first_success attempt keys'
          end
      end
  end.

(* ------------------------------------------------------------------------- *)
(** ** Predicates used in the statements *)

(** A File source is read: its encoding is detected and its content read. *)
Definition file_read_ok (W : World) (envFilepath : jsstring) : Prop :=
  ∃ encoding src,
    detectEncoding W (path_resolve W envFilepath) = Ok encoding ∧
    fs_readFileSync W (path_resolve W envFilepath) encoding = Ok src.

(** A Vault source is read: the file exists and its content is read. *)
Definition vault_read_ok (W : World) (envVaultFilepath : jsstring) : Prop :=
  fs_existsSync W (path_resolve W envVaultFilepath) = true ∧
  ∃ src, fs_readFileSync W (path_resolve W envVaultFilepath) ENCODING = Ok src.

(** The file of a File source is missing: detecting its encoding or reading
    it fails with [ENOENT]. *)
Definition file_missing (W : World) (envFilepath : jsstring) : Prop :=
  ∃ e, code e = Some (js "ENOENT") ∧
    (detectEncoding W (path_resolve W envFilepath) = Throw e ∨
     ∃ encoding,
       detectEncoding W (path_resolve W envFilepath) = Ok encoding ∧
       fs_readFileSync W (path_resolve W envFilepath) encoding = Throw e).

(** parseDecryptEvalExpand leaves the property [key] of the object at [l] as
    it is (the specification has the expander pure). *)
Definition pdee_keeps (W : World) (l : loc) (key : jsstring) : Prop :=
  ∀ h src privateKey,
    heap_get (parseDecryptEvalExpand W h src privateKey l).1 l key
    = heap_get h l key.

(** Two states of a Run with the same secret, flag and [process.env]. *)
Definition same_settings (r r' : Run) : Prop :=
  DOTENV_KEY r' = DOTENV_KEY r ∧ overload r' = overload r ∧
  processEnv r' = processEnv r.

(** The key [key] of [process.env] still has the value [v] it had before the
    run, and every record whose [parsed] defines [key] has it in
    [preExisted] with that value. *)
Definition existing_kept (key v : jsstring) (r : Run) (h : Heap) : Prop :=
  heap_get h (processEnv r) key = Some v ∧
  ∀ row parsed,
    row ∈ processedEnvs r → row_parsed row = Some parsed →
    key ∈ obj_keys parsed →
    ∃ pre, row_preExisted row = Some pre ∧ obj_get pre key = Some v.

(** What the vault handler leaves when it returns [out] after it decrypted
    [plaintext] for the vault file [p], from the state [r], [h]: it returned,
    and it pushed one record for the vault file, whose fields are what
    parseDecryptEvalExpand makes of the plaintext and what inject makes of
    that; the heap is the one these two hand back. *)
Definition vault_recorded (W : World) (plaintext p : jsstring) (r : Run)
    (h : Heap) (out : Res unit * (Run * Heap)) : Prop :=
  out.1 = Ok tt ∧
  ∃ row,
    processedEnvs out.2.1 = processedEnvs r ++ [row] ∧
    row_type row = TYPE_ENV_VAULT_FILE ∧ row_filepath row = Some p ∧
    match parseDecryptEvalExpand W h (Some plaintext) None (processEnv r) with
    | (h1, Throw e) =>
        row_parsed row = None ∧ row_error row = Some e ∧ out.2.2 = h1
    | (h1, Ok parsed) =>
        row_parsed row = Some (out_parsed parsed) ∧
        row_warnings row = Some (out_warnings parsed) ∧
        match inject W h1 (out_processEnv parsed) (out_parsed parsed)
                (overload r) (processEnv r) with
        | (h2, Throw e) =>
            row_injected row = None ∧ row_error row = Some e ∧ out.2.2 = h2
        | (h2, Ok io) =>
            row_injected row = Some (injected io) ∧
            row_preExisted row = Some (preExisted io) ∧
            row_error row = None ∧ out.2.2 = h2
        end
    end.

(** The injected keys of the records of a list. *)
Definition injected_in (rows : list Row) (key : jsstring) : Prop :=
  ∃ row m, row ∈ rows ∧ row_injected row = Some m ∧ key ∈ obj_keys m.

(* ------------------------------------------------------------------------- *)
(** ** A small concrete world

    A file system given by a list of files under [/app/], a line parser for
    [KEY=VALUE], and a toy cipher: the ciphertext of [text] under [key] is
    [key|text].  It serves to run the engine on concrete inputs. *)

Module Demo.

Definition ENOENT : JsError := mkError (Some (js "ENOENT")) (js "no such file").

Definition resolve (p : jsstring) : jsstring := js "/app/" ++ p.

Definition read (files : Obj) (p : jsstring) : Res jsstring :=
  match obj_get files p with
  | Some src => Ok src
  | None => Throw ENOENT
  end.

(** The part of [s] before the first [c], and the part after it. *)
Fixpoint cut (c : N) (s : jsstring) : option (jsstring * jsstring) :=
  match s with
  | [] => None
  | d :: s' =>
      if decide (d = c) then Some ([], s')
      else match cut c s' with
           | Some (a, b) => Some (d :: a, b)
           | None => None
           end
  end.

Definition parse (src : jsstring) : Obj :=
  foldl (λ o line,
           match cut 61%N line with
           | Some (k, v) => obj_set o k v
           | None => o
           end)
        [] (split 10%N src).

Definition upper (s : jsstring) : jsstring :=
  map (λ c, if (97 <=? c)%N && (c <=? 122)%N then (c - 32)%N else c) s.

Definition environment_of (dotenvKey : jsstring) : Res jsstring :=
  match cut 61%N dotenvKey with
  | Some (_, environment) => Ok environment
  | None => Throw (mkError (Some (js "INVALID_DOTENV_KEY")) (js "invalid key"))
  end.

Definition decipher (ciphertext key : jsstring) : Res jsstring :=
  if startsWith ciphertext (key ++ js "|")
  then Ok (drop (length key + 1) ciphertext)
  else Throw (mkError (Some (js "DECRYPTION_FAILED")) (js "wrong key " ++ key)).

Definition pdee (h : Heap) (src privateKey : option jsstring) (l : loc)
    : Heap * Res PDEEOut :=
  match src with
  | Some src => (h, Ok (mkPDEEOut (parse src) l []))
  | None => (h, Throw (mkError None (js "nothing to parse")))
  end.

Definition world (files : Obj) : World :=
  {| path_resolve := resolve;
     fs_existsSync := λ p, bool_decide (is_Some (obj_get files p));
     fs_readFileSync := λ p _, read files p;
     detectEncoding := λ p, match read files p with
                            | Ok _ => Ok ENCODING
                            | Throw e => Throw e
                            end;
     dotenv_parse := parse;
     parseDecryptEvalExpand := pdee;
     inject := inject_spec;
     decrypt := decipher;
     parseEnvironmentFromDotenvKey := environment_of;
     toUpperCase := upper;
     guessPrivateKeyFilename := λ _, js ".env";
     guessPrivateKeyName := λ _, Ok (js "DOTENV_PRIVATE_KEY");
     pro_keypair := λ _ _, Throw (mkError (Some (js "MODULE_NOT_FOUND")) []);
     cli_keypair := λ _ _, Throw (mkError None (js "command not found"));
     local_keypair := λ _ _, Ok None |}.

(** [process.env] is the object at location 0. *)
Definition heap_of (env : Obj) : Heap := {[ 0 := env ]}.

(** A vault that holds [HELLO=world] for production under the key
    [good?environment=production]. *)
Definition vault_files : Obj :=
  [(js "/app/.env.vault",
    js "DOTENV_VAULT_PRODUCTION=good?environment=production|HELLO=world");
   (js "/app/.env", js "HELLO=world")].

Definition bad_keys : jsstring :=
  js "bad?environment=production, worse?environment=production".

Definition rotated_keys : jsstring :=
  js "bad?environment=production, good?environment=production".

Definition vault_plan : list Env :=
  [mkEnv TYPE_ENV_VAULT_FILE (js ".env.vault"); mkEnv TYPE_ENV (js "LATER=one")].

End Demo.

(* ------------------------------------------------------------------------- *)
(** ** Further notions used in the statements *)

(** [Array.prototype.join] with a separator of one code unit. *)
Fixpoint join (sep : N) (l : list jsstring) : jsstring :=
  match l with
  | [] => []
  | s :: l' =>
      match l' with
      | [] => s
      | _ :: _ => s ++ sep :: join sep l'
      end
  end.

(** The types that [run] dispatches on; a source of another type is passed
    over. *)
Definition HANDLED_TYPES : list jsstring :=
  [TYPE_ENV_VAULT_FILE; TYPE_ENV_FILE; TYPE_ENV].

(** What a record says of its source: [row.string] for an Inline source,
    [row.filepath] for the others. *)
Definition row_source (row : Row) : option jsstring :=
  if decide (row_type row = TYPE_ENV) then row_string row else row_filepath row.

(** The fields of a record that go together: [parsed] with [warnings],
    [injected] with [preExisted] and only after [parsed], and [error] exactly
    when there is no [injected]. *)
Definition row_wf (row : Row) : Prop :=
  (is_Some (row_parsed row) ↔ is_Some (row_warnings row)) ∧
  (is_Some (row_injected row) ↔ is_Some (row_preExisted row)) ∧
  (is_Some (row_injected row) → is_Some (row_parsed row)) ∧
  (is_Some (row_error row) ↔ row_injected row = None).

(** [s] is the string of an Inline record of [rows] that has [parsed]. *)
Definition parsed_inline (rows : list Row) (s : jsstring) : Prop :=
  ∃ row, row ∈ rows ∧ row_type row = TYPE_ENV ∧ row_string row = Some s ∧
         is_Some (row_parsed row).

(** A string with white space neither first nor last. *)
Definition trimmed (s : jsstring) : Prop :=
  (∀ c, head s = Some c → isWhiteSpace c = false) ∧
  (∀ c, last s = Some c → isWhiteSpace c = false).

(** A world like [W] but for its local key store. *)
Definition with_local_keypair (W : World)
    (f : jsstring → jsstring → Res (option jsstring)) : World :=
  {| path_resolve := path_resolve W;
     fs_existsSync := fs_existsSync W;
     fs_readFileSync := fs_readFileSync W;
     detectEncoding := detectEncoding W;
     dotenv_parse := dotenv_parse W;
     parseDecryptEvalExpand := parseDecryptEvalExpand W;
     inject := inject W;
     decrypt := decrypt W;
     parseEnvironmentFromDotenvKey := parseEnvironmentFromDotenvKey W;
     toUpperCase := toUpperCase W;
     guessPrivateKeyFilename := guessPrivateKeyFilename W;
     guessPrivateKeyName := guessPrivateKeyName W;
     pro_keypair := pro_keypair W;
     cli_keypair := cli_keypair W;
     local_keypair := f |}.

(** A world like [W] but for its injector. *)
Definition with_inject (W : World)
    (f : Heap → loc → Obj → bool → loc → Heap * Res InjectOut) : World :=
  {| path_resolve := path_resolve W;
     fs_existsSync := fs_existsSync W;
     fs_readFileSync := fs_readFileSync W;
     detectEncoding := detectEncoding W;
     dotenv_parse := dotenv_parse W;
     parseDecryptEvalExpand := parseDecryptEvalExpand W;
     inject := f;
     decrypt := decrypt W;
     parseEnvironmentFromDotenvKey := parseEnvironmentFromDotenvKey W;
     toUpperCase := toUpperCase W;
     guessPrivateKeyFilename := guessPrivateKeyFilename W;
     guessPrivateKeyName := guessPrivateKeyName W;
     pro_keypair := pro_keypair W;
     cli_keypair := cli_keypair W;
     local_keypair := local_keypair W |}.

(** A world like [W] but for the command-line tool. *)
Definition with_cli_keypair (W : World)
    (f : jsstring → jsstring → Res jsstring) : World :=
  {| path_resolve := path_resolve W;
     fs_existsSync := fs_existsSync W;
     fs_readFileSync := fs_readFileSync W;
     detectEncoding := detectEncoding W;
     dotenv_parse := dotenv_parse W;
     parseDecryptEvalExpand := parseDecryptEvalExpand W;
     inject := inject W;
     decrypt := decrypt W;
     parseEnvironmentFromDotenvKey := parseEnvironmentFromDotenvKey W;
     toUpperCase := toUpperCase W;
     guessPrivateKeyFilename := guessPrivateKeyFilename W;
     guessPrivateKeyName := guessPrivateKeyName W;
     pro_keypair := pro_keypair W;
     cli_keypair := f;
     local_keypair := local_keypair W |}.

(* ========================================================================= *)
(** * Properties *)

(* ------------------------------------------------------------------------- *)
(** ** Strings, objects and sets *)

Lemma slice_from_0 (s : jsstring) (n : Z) :
  (0 ≤ n)%Z → slice s 0 n = take (Z.to_nat n `min` length s) s.
Proof.
  intros Hn. unfold slice, slice_index.
  destruct (Z.ltb_spec 0 0) as [?|_]; [lia|].
  destruct (Z.ltb_spec n 0) as [?|_]; [lia|].
  rewrite (Z.min_l 0) by lia. simpl. rewrite drop_0, Z.sub_0_r.
  replace (Z.to_nat (Z.min n (Z.of_nat (length s))))
    with (Z.to_nat n `min` length s) by lia.
  reflexivity.
Qed.

Lemma split_no_sep (sep : N) (s : jsstring) :
  Forall (λ c, c ≠ sep) s → split sep s = [s].
Proof.
  induction 1 as [|c s Hc _ IH]; simpl; [done|].
  rewrite decide_False by done. by rewrite IH.
Qed.

Lemma split_nonempty (sep : N) (s : jsstring) : split sep s ≠ [].
Proof.
  induction s as [|c s IH]; simpl; [done|].
  case_decide; [done|]. by destruct (split sep s).
Qed.

Lemma trimStart_whitespace (s : jsstring) :
  Forall (λ c, isWhiteSpace c = true) s → trimStart s = [].
Proof. induction 1 as [|c s Hc _ IH]; simpl; [done|]. by rewrite Hc. Qed.

Lemma trim_whitespace (s : jsstring) :
  Forall (λ c, isWhiteSpace c = true) s → trim s = [].
Proof. intros H. unfold trim, trimEnd. rewrite (trimStart_whitespace s) by done. reflexivity. Qed.

Lemma obj_get_set_ne (o : Obj) (k k' v : jsstring) :
  k ≠ k' → obj_get (obj_set o k v) k' = obj_get o k'.
Proof.
  intros Hne. induction o as [|[k0 v0] o IH]; simpl.
  - by rewrite decide_False.
  - destruct (decide (k0 = k)) as [->|?]; simpl.
    + by rewrite !decide_False.
    + by rewrite IH.
Qed.

Lemma obj_get_set_eq (o : Obj) (k v : jsstring) :
  obj_get (obj_set o k v) k = Some v.
Proof.
  induction o as [|[k0 v0] o IH]; simpl.
  - by rewrite decide_True.
  - destruct (decide (k0 = k)) as [->|?]; simpl.
    + by rewrite decide_True.
    + by rewrite decide_False.
Qed.

Lemma heap_get_set_ne (h : Heap) (l l' : loc) (k k' v : jsstring) :
  k ≠ k' → heap_get (heap_set h l k v) l' k' = heap_get h l' k'.
Proof.
  intros Hne. unfold heap_get, heap_set.
  destruct (decide (l = l')) as [->|Hl].
  - rewrite lookup_total_insert_eq. by apply obj_get_set_ne.
  - by rewrite lookup_total_insert_ne.
Qed.

Lemma elem_of_set_add (x y : jsstring) (s : list jsstring) :
  x ∈ set_add y s ↔ x = y ∨ x ∈ s.
Proof.
  unfold set_add. case_decide as Hy.
  - split; [auto|]. intros [->|?]; done.
  - rewrite elem_of_app, list_elem_of_singleton. tauto.
Qed.

Lemma NoDup_set_add (y : jsstring) (s : list jsstring) :
  NoDup s → NoDup (set_add y s).
Proof.
  intros Hs. unfold set_add. case_decide; [done|].
  apply NoDup_app. split_and!; [done| |apply NoDup_singleton].
  intros x Hx ->%list_elem_of_singleton. done.
Qed.

(* ------------------------------------------------------------------------- *)
(** ** truncate *)

Lemma truncate_take (s : jsstring) (n : Z) :
  (0 ≤ n)%Z → truncate s (Some n) = take (Z.to_nat n `min` length s) s ++ ELLIPSIS.
Proof. intros Hn. unfold truncate. simpl. by rewrite slice_from_0. Qed.

(** C10, as stated, fails: the string that is the ellipsis alone, truncated
    to zero characters, is the ellipsis again, and a string of seven
    characters and the ellipsis is left as it is by the default count. *)
Lemma truncate_fixed_point :
  truncate [8230%N] (Some 0%Z) = [8230%N] ∧
  truncate (js "abcdefg" ++ [8230%N]) None = js "abcdefg" ++ [8230%N].
Proof. split; reflexivity. Qed.

(** C10 (amended): for a count [n ≥ 0], [truncate s n] is the first
    [min n (length s)] code units of [s] followed by the ellipsis, the
    omitted count being 7; the result equals [s] exactly when what follows
    the first [n] code units of [s] is the ellipsis alone, so it differs
    from [s] whenever [s] has at most [n] code units, the empty string
    included. *)
Theorem truncate_spec (s : jsstring) (n : Z) :
  (0 ≤ n)%Z →
  truncate s (Some n) = take (Z.to_nat n `min` length s) s ++ ELLIPSIS ∧
  truncate s None = truncate s (Some 7%Z) ∧
  (truncate s (Some n) = s ↔ drop (Z.to_nat n) s = ELLIPSIS) ∧
  (length s ≤ Z.to_nat n → truncate s (Some n) ≠ s).
Proof.
  intros Hn. split_and!.
  - by apply truncate_take.
  - reflexivity.
  - rewrite truncate_take by done.
    rewrite <- take_take. rewrite firstn_all.
    split.
    + intros H. rewrite <- (take_drop (Z.to_nat n) s) in H at 2.
      by apply app_inv_head in H.
    + intros <-. apply take_drop.
  - intros Hlen. rewrite truncate_take by done. intros H.
    apply (f_equal length) in H. rewrite length_app, length_take in H.
    simpl in H. lia.
Qed.

Lemma truncate_spec_witness :
  (0 ≤ 3)%Z ∧
  truncate (js "hello") (Some 3%Z) = js "hel" ++ ELLIPSIS ∧
  truncate (js "hi") (Some 3%Z) ≠ js "hi".
Proof.
  pose proof (truncate_spec (js "hello") 3 ltac:(lia)) as (H1 & _).
  pose proof (truncate_spec (js "hi") 3 ltac:(lia)) as (_ & _ & _ & H4).
  split_and!; [lia|exact H1|apply H4; simpl; lia].
Defined.

(* ------------------------------------------------------------------------- *)
(** ** The plan: _determineEnvs *)

Section Plan.
Context (W : World).

Lemma filter_none {A} (f : A → bool) (l : list A) :
  Forall (λ x, f x = false) l → List.filter f l = [].
Proof. induction 1 as [|x l Hx _ IH]; simpl; [done|]. by rewrite Hx. Qed.

(** The flag of the loop of [_determineEnvs] once it has run over [envs]. *)
Lemma fileAlreadySpecified_foldl (key : jsstring) (envs : list Env) (b : bool) :
  foldl (fileAlreadySpecified_step key) b envs = true ↔
  b = true ∨
  (key ≠ [] ∧ Exists (λ env, type env = TYPE_ENV_VAULT_FILE) envs) ∨
  (key = [] ∧ Exists (λ env, type env = TYPE_ENV_FILE) envs).
Proof.
  revert b. induction envs as [|env envs IH]; intros b; simpl.
  - rewrite !Exists_nil. tauto.
  - rewrite IH, !Exists_cons. unfold fileAlreadySpecified_step.
    destruct key as [|c key]; simpl.
    + case_bool_decide; destruct b; intuition congruence.
    + case_bool_decide; destruct b; intuition congruence.
Qed.

(** C4: with no source from the caller and no ambient name that starts with
    [DOTENV_PRIVATE_KEY], the plan of a new [Run] is exactly the [.env] file
    when [DOTENV_KEY] is empty, and exactly the [.env.vault] vault file when
    it is not. *)
Theorem no_input_plan (overload : bool) (DOTENV_KEY : jsstring)
    (processEnv : loc) (h : Heap) :
  Forall (λ name, startsWith name (js "DOTENV_PRIVATE_KEY") = false)
         (obj_keys (h !!! processEnv)) →
  (DOTENV_KEY = [] →
   envs (new_Run W [] overload DOTENV_KEY processEnv h)
   = [mkEnv TYPE_ENV_FILE (js ".env")]) ∧
  (DOTENV_KEY ≠ [] →
   envs (new_Run W [] overload DOTENV_KEY processEnv h)
   = [mkEnv TYPE_ENV_VAULT_FILE (js ".env.vault")]).
Proof.
  intros Hnames. unfold new_Run. cbn [envs].
  rewrite (filter_none _ _ Hnames). unfold _determineEnvs. cbn [length Nat.leb Nat.ltb].
  split.
  - intros ->. reflexivity.
  - intros Hkey. destruct DOTENV_KEY; [done|reflexivity].
Qed.

(** C5: a non-empty list of sources from the caller comes back unchanged
    when it holds a vault file and [DOTENV_KEY] is set, or a file and
    [DOTENV_KEY] is empty; otherwise it comes back with one default source
    in front ([.env.vault] when [DOTENV_KEY] is set, [.env] when not).  In
    both cases the caller's sources follow in their order, none removed and
    none added after them. *)
Theorem caller_plan_kept (names : list jsstring) (envs : list Env)
    (DOTENV_KEY : jsstring) :
  envs ≠ [] →
  let already :=
    (DOTENV_KEY ≠ [] ∧ Exists (λ env, type env = TYPE_ENV_VAULT_FILE) envs) ∨
    (DOTENV_KEY = [] ∧ Exists (λ env, type env = TYPE_ENV_FILE) envs) in
  let default :=
    if decide (DOTENV_KEY = []) then mkEnv TYPE_ENV_FILE (js ".env")
    else mkEnv TYPE_ENV_VAULT_FILE (js ".env.vault") in
  (already → _determineEnvs W names envs DOTENV_KEY = envs) ∧
  (¬ already → _determineEnvs W names envs DOTENV_KEY = default :: envs) ∧
  (∃ front, _determineEnvs W names envs DOTENV_KEY = front ++ envs ∧
            (front = [] ∨ front = [default])).
Proof.
  intros Hne already default.
  assert (Hflag : foldl (fileAlreadySpecified_step DOTENV_KEY) false envs = true
                  ↔ already).
  { rewrite fileAlreadySpecified_foldl. subst already. intuition congruence. }
  assert (Hdet : _determineEnvs W names envs DOTENV_KEY =
                 if foldl (fileAlreadySpecified_step DOTENV_KEY) false envs
                 then envs else default :: envs).
  { unfold _determineEnvs. destruct envs as [|env envs']; [done|]. simpl length.
    change (S (length envs') <=? 0) with false. cbv iota.
    destruct (foldl _ _ _); [done|].
    subst default. destruct DOTENV_KEY; reflexivity. }
  destruct (foldl (fileAlreadySpecified_step DOTENV_KEY) false envs) eqn:Hf.
  - split_and!.
    + done.
    + intros Hn. destruct Hn. by apply Hflag.
    + exists []. auto.
  - assert (¬ already) as Hn by (rewrite <- Hflag; done).
    split_and!.
    + intros Ha. done.
    + done.
    + exists [default]. auto.
Qed.

End Plan.

Lemma no_input_plan_witness :
  envs (new_Run (Demo.world []) [] false [] 0 (Demo.heap_of [(js "PATH", js "/bin")]))
  = [mkEnv TYPE_ENV_FILE (js ".env")] ∧
  envs (new_Run (Demo.world []) [] false (js "k?environment=ci") 0
                (Demo.heap_of [(js "PATH", js "/bin")]))
  = [mkEnv TYPE_ENV_VAULT_FILE (js ".env.vault")].
Proof.
  split.
  - apply (no_input_plan (Demo.world []) false [] 0
             (Demo.heap_of [(js "PATH", js "/bin")])); [|reflexivity].
    vm_compute. repeat constructor.
  - apply (no_input_plan (Demo.world []) false (js "k?environment=ci") 0
             (Demo.heap_of [(js "PATH", js "/bin")])); [|discriminate].
    vm_compute. repeat constructor.
Defined.

Lemma caller_plan_kept_witness :
  _determineEnvs (Demo.world []) [] [mkEnv TYPE_ENV (js "HELLO=one")] []
  = [mkEnv TYPE_ENV_FILE (js ".env"); mkEnv TYPE_ENV (js "HELLO=one")].
Proof.
  apply (caller_plan_kept (Demo.world []) [] [mkEnv TYPE_ENV (js "HELLO=one")] []).
  - discriminate.
  - intros [[H _]|[_ H]]; [done|].
    apply Exists_cons in H as [H|H]; [discriminate H|].
    by apply Exists_nil in H.
Defined.

(* ------------------------------------------------------------------------- *)
(** ** The fields of a Run *)

(** Adding injected keys touches [uniqueInjectedKeys] alone. *)
Lemma track_processedEnvs (r : Run) (keys : list jsstring) :
  processedEnvs (foldl add_uniqueInjectedKey r keys) = processedEnvs r.
Proof. revert r. induction keys as [|k keys IH]; intros r; simpl; [done|by rewrite IH]. Qed.

Lemma track_readableFilepaths (r : Run) (keys : list jsstring) :
  readableFilepaths (foldl add_uniqueInjectedKey r keys) = readableFilepaths r.
Proof. revert r. induction keys as [|k keys IH]; intros r; simpl; [done|by rewrite IH]. Qed.

Lemma track_DOTENV_KEY (r : Run) (keys : list jsstring) :
  DOTENV_KEY (foldl add_uniqueInjectedKey r keys) = DOTENV_KEY r.
Proof. revert r. induction keys as [|k keys IH]; intros r; simpl; [done|by rewrite IH]. Qed.

Lemma track_overload (r : Run) (keys : list jsstring) :
  overload (foldl add_uniqueInjectedKey r keys) = overload r.
Proof. revert r. induction keys as [|k keys IH]; intros r; simpl; [done|by rewrite IH]. Qed.

Lemma track_processEnv (r : Run) (keys : list jsstring) :
  processEnv (foldl add_uniqueInjectedKey r keys) = processEnv r.
Proof. revert r. induction keys as [|k keys IH]; intros r; simpl; [done|by rewrite IH]. Qed.

Lemma track_uniqueInjectedKeys (r : Run) (keys : list jsstring) :
  uniqueInjectedKeys (foldl add_uniqueInjectedKey r keys)
  = foldl (λ s k, set_add k s) (uniqueInjectedKeys r) keys.
Proof. revert r. induction keys as [|k keys IH]; intros r; simpl; [done|by rewrite IH]. Qed.

Create Rewrite HintDb run_fields.
Hint Rewrite track_processedEnvs track_readableFilepaths track_DOTENV_KEY
  track_overload track_processEnv track_uniqueInjectedKeys : run_fields.

(* ------------------------------------------------------------------------- *)
(** ** The handlers of Inline and File sources *)

Section Handlers.
Context (W : World).

Lemma run_env_vault (env : Env) (r : Run) (h : Heap) :
  type env = TYPE_ENV_VAULT_FILE →
  run_env W env r h = _injectEnvVaultFile W (value env) r h.
Proof. intros Ht. unfold run_env. by rewrite decide_True. Qed.

Lemma run_env_file (env : Env) (r : Run) (h : Heap) :
  type env = TYPE_ENV_FILE → run_env W env r h = _injectEnvFile W (value env) r h.
Proof.
  intros Ht. unfold run_env. rewrite Ht.
  rewrite decide_False by discriminate. by rewrite decide_True.
Qed.

Lemma run_env_inline (env : Env) (r : Run) (h : Heap) :
  type env = TYPE_ENV → run_env W env r h = _injectEnv W (value env) r h.
Proof.
  intros Ht. unfold run_env. rewrite Ht.
  rewrite !decide_False by discriminate. by rewrite decide_True.
Qed.

(** What [inject_and_track] leaves behind, by the outcome of [inject]. *)
Lemma inject_and_track_eq (out : PDEEOut) (row : Row) (r : Run) (h : Heap) :
  inject_and_track W out row r h =
  match inject W h (out_processEnv out) (out_parsed out) (overload r) (processEnv r) with
  | (h', Throw e) => (Throw e, (row, r, h'))
  | (h', Ok io) =>
      (Ok tt, (row_set_injected row (injected io) (preExisted io),
               foldl add_uniqueInjectedKey r (obj_keys (injected io)), h'))
  end.
Proof. unfold inject_and_track, _inject. by repeat case_match. Qed.

Lemma injectEnv_returns (s : jsstring) (r : Run) (h : Heap) :
  (_injectEnv W s r h).1 = Ok tt.
Proof. unfold _injectEnv. by repeat case_match. Qed.

Lemma injectEnvFile_returns (p : jsstring) (r : Run) (h : Heap) :
  (_injectEnvFile W p r h).1 = Ok tt.
Proof. unfold _injectEnvFile. by repeat case_match. Qed.

Lemma run_env_returns (env : Env) (r : Run) (h : Heap) :
  type env ≠ TYPE_ENV_VAULT_FILE → (run_env W env r h).1 = Ok tt.
Proof.
  intros Ht. unfold run_env. rewrite decide_False by done.
  repeat case_decide; auto using injectEnv_returns, injectEnvFile_returns.
Qed.

Lemma run_loop_cons (env : Env) (rest : list Env) (r : Run) (h : Heap) :
  (run_env W env r h).1 = Ok tt →
  run_loop W (env :: rest) r h
  = run_loop W rest (run_env W env r h).2.1 (run_env W env r h).2.2.
Proof.
  intros Hret. simpl.
  destruct (run_env W env r h) as [[[]|e] [r' h']]; simpl in *; done.
Qed.

Lemma run_loop_app (pre rest : list Env) (r : Run) (h : Heap) :
  (run_loop W pre r h).1 = Ok tt →
  run_loop W (pre ++ rest) r h
  = run_loop W rest (run_loop W pre r h).2.1 (run_loop W pre r h).2.2.
Proof.
  revert r h. induction pre as [|env pre IH]; intros r h; simpl; [done|].
  destruct (run_env W env r h) as [[[]|e] [r' h']]; simpl; [|done].
  apply IH.
Qed.

(** The row that [_injectEnv] pushes. *)
Lemma injectEnv_row (s : jsstring) (r : Run) (h : Heap) :
  ∃ row,
    processedEnvs (_injectEnv W s r h).2.1 = processedEnvs r ++ [row] ∧
    row_type row = TYPE_ENV ∧ row_string row = Some s ∧
    ∀ h' e,
      parseDecryptEvalExpand W h (Some s) None (processEnv r) = (h', Throw e) →
      row_error row = Some e.
Proof.
  unfold _injectEnv.
  destruct (parseDecryptEvalExpand W h (Some s) None (processEnv r))
    as [h1 [out|e1]]; simpl.
  - rewrite inject_and_track_eq.
    destruct (inject W _ _ _ _ _) as [h2 [io|e2]]; simpl;
      autorewrite with run_fields;
      eexists; (split_and!; [reflexivity..|]); intros; simplify_eq.
  - eexists; (split_and!; [reflexivity..|]). intros; by simplify_eq.
Qed.

(** Closes a case by the equations at hand on what the helpers returned. *)
Ltac close_row :=
  intros; simplify_eq;
  repeat match goal with
         | H1 : ?a = _, H2 : ?a = _ |- _ => rewrite H1 in H2; simplify_eq
         end;
  try case_decide; first [done|congruence].

(** The row that [_injectEnvFile] pushes. *)
Lemma injectEnvFile_row (p : jsstring) (r : Run) (h : Heap) :
  ∃ row,
    processedEnvs (_injectEnvFile W p r h).2.1 = processedEnvs r ++ [row] ∧
    row_type row = TYPE_ENV_FILE ∧ row_filepath row = Some p ∧
    (file_missing W p →
     row_error row = Some (MISSING_ENV_FILE p (path_resolve W p))) ∧
    (∀ encoding src privateKey h' e,
       detectEncoding W (path_resolve W p) = Ok encoding →
       fs_readFileSync W (path_resolve W p) encoding = Ok src →
       _determinePrivateKey W p = Ok privateKey →
       parseDecryptEvalExpand W h (Some src) privateKey (processEnv r)
       = (h', Throw e) →
       row_error row =
       Some (if decide (code e = Some (js "ENOENT"))
             then MISSING_ENV_FILE p (path_resolve W p) else e)).
Proof.
  unfold _injectEnvFile, file_missing.
  destruct (detectEncoding W (path_resolve W p)) as [enc|e0]; simpl.
  2:{ destruct (decide (code e0 = _)) as [Hc|Hc];
        (eexists; split_and!; [reflexivity..| |]);
        first [ intros (e & He & [Hd|(enc & Hd & _)]); close_row | close_row ]. }
  destruct (fs_readFileSync W (path_resolve W p) enc) as [src|e0] eqn:Hread; simpl.
  2:{ destruct (decide (code e0 = _)) as [Hc|Hc];
        (eexists; split_and!; [reflexivity..| |]);
        first [ intros (e & He & [Hd|(enc' & Hd & Hr)]); close_row | close_row ]. }
  assert (Hpresent : ¬ ∃ e : JsError,
             code e = Some (js "ENOENT") ∧
             (Ok enc = Throw e ∨
              ∃ encoding, Ok enc = Ok encoding ∧
                fs_readFileSync W (path_resolve W p) encoding = Throw e)).
  { intros (e & He & [Hd|(enc' & Hd & Hr)]); close_row. }
  destruct (_determinePrivateKey W p) as [pk|e0]; simpl.
  2:{ destruct (decide (code e0 = _)) as [Hc|Hc];
        (eexists; split_and!; [reflexivity..| |]);
        first [ by intros []%Hpresent | close_row ]. }
  destruct (parseDecryptEvalExpand W h (Some src) pk (processEnv r))
    as [h1 [out|e1]] eqn:Hpdee; simpl.
  - rewrite inject_and_track_eq.
    destruct (inject W _ _ _ _ _) as [h2 [io|e2]]; simpl;
      autorewrite with run_fields;
      [|destruct (decide (code e2 = _))];
      (eexists; split_and!; [reflexivity..| |]);
      first [ by intros []%Hpresent | close_row ].
  - destruct (decide (code e1 = _)) as [Hc|Hc];
      (eexists; split_and!; [reflexivity..| |]);
      first [ by intros []%Hpresent | close_row ].
Qed.

Lemma run_env_pushes_one (env : Env) (r : Run) (h : Heap) :
  type env = TYPE_ENV ∨ type env = TYPE_ENV_FILE →
  (run_env W env r h).1 = Ok tt ∧
  length (processedEnvs (run_env W env r h).2.1) = S (length (processedEnvs r)).
Proof.
  intros [Ht|Ht].
  - rewrite run_env_inline by done. split; [apply injectEnv_returns|].
    destruct (injectEnv_row (value env) r h) as (row & -> & _).
    rewrite length_app. simpl. lia.
  - rewrite run_env_file by done. split; [apply injectEnvFile_returns|].
    destruct (injectEnvFile_row (value env) r h) as (row & -> & _).
    rewrite length_app. simpl. lia.
Qed.

Lemma run_loop_pushes_all (plan : list Env) (r : Run) (h : Heap) :
  Forall (λ env, type env = TYPE_ENV ∨ type env = TYPE_ENV_FILE) plan →
  (run_loop W plan r h).1 = Ok tt ∧
  length (processedEnvs (run_loop W plan r h).2.1)
  = length (processedEnvs r) + length plan.
Proof.
  intros Hplan. revert r h.
  induction Hplan as [|env plan Ht _ IH]; intros r h.
  - simpl. split; [done|lia].
  - destruct (run_env_pushes_one env r h Ht) as [Hret Hlen].
    rewrite run_loop_cons by done.
    destruct (IH (run_env W env r h).2.1 (run_env W env r h).2.2) as [-> ->].
    split; [done|]. rewrite Hlen. simpl. lia.
Qed.

(** C7: an Inline or File source never aborts the run.  Its handler
    returns, having pushed one record for the source; a failure of
    parseDecryptEvalExpand is the error of that record (for a File source,
    turned into [MISSING_ENV_FILE] when its code is [ENOENT]); a missing
    file is recorded as [MISSING_ENV_FILE], whose message carries the path
    as given and as resolved; and the loop goes on with the next source, so
    a plan with no vault file runs to its end. *)
Theorem inline_and_file_failures_recorded (r : Run) (h : Heap) :
  (∀ s,
     (_injectEnv W s r h).1 = Ok tt ∧
     ∃ row,
       processedEnvs (_injectEnv W s r h).2.1 = processedEnvs r ++ [row] ∧
       row_type row = TYPE_ENV ∧ row_string row = Some s ∧
       ∀ h' e,
         parseDecryptEvalExpand W h (Some s) None (processEnv r) = (h', Throw e) →
         row_error row = Some e) ∧
  (∀ p,
     (_injectEnvFile W p r h).1 = Ok tt ∧
     ∃ row,
       processedEnvs (_injectEnvFile W p r h).2.1 = processedEnvs r ++ [row] ∧
       row_type row = TYPE_ENV_FILE ∧ row_filepath row = Some p ∧
       (file_missing W p →
        row_error row = Some (MISSING_ENV_FILE p (path_resolve W p)) ∧
        code (MISSING_ENV_FILE p (path_resolve W p)) = Some (js "MISSING_ENV_FILE") ∧
        message (MISSING_ENV_FILE p (path_resolve W p))
        = js "missing " ++ p ++ js " file (" ++ path_resolve W p ++ js ")") ∧
       (∀ encoding src privateKey h' e,
          detectEncoding W (path_resolve W p) = Ok encoding →
          fs_readFileSync W (path_resolve W p) encoding = Ok src →
          _determinePrivateKey W p = Ok privateKey →
          parseDecryptEvalExpand W h (Some src) privateKey (processEnv r)
          = (h', Throw e) →
          row_error row =
          Some (if decide (code e = Some (js "ENOENT"))
                then MISSING_ENV_FILE p (path_resolve W p) else e))) ∧
  (∀ env rest,
     type env = TYPE_ENV ∨ type env = TYPE_ENV_FILE →
     run_loop W (env :: rest) r h
     = run_loop W rest (run_env W env r h).2.1 (run_env W env r h).2.2) ∧
  (Forall (λ env, type env = TYPE_ENV ∨ type env = TYPE_ENV_FILE) (envs r) →
   ∃ report,
     (run W r h).1 = Ok report ∧
     length (rep_processedEnvs report)
     = length (processedEnvs r) + length (envs r)).
Proof.
  split_and!.
  - intros s. split; [apply injectEnv_returns|apply injectEnv_row].
  - intros p. split; [apply injectEnvFile_returns|].
    destruct (injectEnvFile_row p r h) as (row & H1 & H2 & H3 & H4 & H5).
    exists row. split_and!; try done.
    intros Hm. split_and!; [by apply H4|reflexivity|reflexivity].
  - intros env rest Ht. apply run_loop_cons, run_env_returns.
    destruct Ht as [Ht|Ht]; rewrite Ht; discriminate.
  - intros Hplan.
    destruct (run_loop_pushes_all (envs r) r h Hplan) as [Hret Hlen].
    unfold run.
    destruct (run_loop W (envs r) r h) as [[[]|e] [r' h']]; simpl in *; [|done].
    eexists. split; [reflexivity|]. exact Hlen.
Qed.

End Handlers.

(* ------------------------------------------------------------------------- *)
(** ** The handler of Vault sources *)

Section Vault.
Context (W : World).

(** The loop over the keys is the rotation of the specification, on the
    trimmed keys. *)
Lemma decrypt_loop_from (dotenvKeys : list jsstring) (parsedVault : Obj)
    (i : nat) (todo : list jsstring) :
  length dotenvKeys = i + length todo →
  decrypt_loop W dotenvKeys parsedVault i todo
  = first_success (λ key, _decrypted W key parsedVault) (map trim todo).
Proof.
  revert i. induction todo as [|key todo IH]; intros i Hlen; simpl; [done|].
  destruct (_decrypted W (trim key) parsedVault) as [d|e]; [done|].
  simpl in Hlen. destruct todo as [|key' todo].
  - simpl in *. destruct (Nat.leb_spec (length dotenvKeys) (i + 1)); [done|lia].
  - destruct (Nat.leb_spec (length dotenvKeys) (i + 1)) as [Hle|_].
    { simpl in Hlen. lia. }
    apply IH. simpl in *. lia.
Qed.

Lemma decrypt_loop_first_success (dotenvKeys : list jsstring) (parsedVault : Obj) :
  decrypt_loop W dotenvKeys parsedVault 0 dotenvKeys
  = first_success (λ key, _decrypted W key parsedVault) (map trim dotenvKeys).
Proof. by apply decrypt_loop_from. Qed.

Lemma first_success_wins (attempt : jsstring → Res jsstring)
    (pre : list jsstring) (key : jsstring) (post : list jsstring)
    (plaintext : jsstring) :
  Forall (λ k, isOk (attempt k) = false) pre →
  attempt key = Ok plaintext →
  first_success attempt (pre ++ key :: post) = Ok (Some plaintext).
Proof.
  intros Hpre Hkey. induction Hpre as [|k pre Hk _ IH]; simpl.
  - by rewrite Hkey.
  - destruct (attempt k); [done|]. rewrite <- IH. by destruct pre.
Qed.

Lemma first_success_all_fail (attempt : jsstring → Res jsstring)
    (keys : list jsstring) :
  keys ≠ [] →
  Forall (λ k, isOk (attempt k) = false) keys →
  ∃ key e, last keys = Some key ∧ attempt key = Throw e ∧
           first_success attempt keys = Throw e.
Proof.
  intros Hne Hall. induction Hall as [|k keys Hk Hall IH]; [done|].
  simpl. destruct (attempt k) as [d|e] eqn:Hak; [done|].
  destruct keys as [|k' keys].
  - exists k, e. done.
  - destruct IH as (key & e' & Hlast & Hkey & Hfs); [done|].
    exists key, e'. done.
Qed.

(** A failure of the rotation is the failure of one of the attempts. *)
Lemma first_success_throw (attempt : jsstring → Res jsstring)
    (keys : list jsstring) (e : JsError) :
  first_success attempt keys = Throw e → ∃ key, attempt key = Throw e.
Proof.
  induction keys as [|k keys IH]; simpl; [done|].
  destruct (attempt k) as [d|e'] eqn:Hak; [done|].
  destruct keys; [intros [= <-]; eauto|apply IH].
Qed.

Lemma vault_parse_and_inject_row (decrypted : option jsstring) (row : Row)
    (r : Run) (h : Heap) :
  (vault_parse_and_inject W decrypted row r h).1 = Ok tt ∧
  ∃ row',
    processedEnvs (vault_parse_and_inject W decrypted row r h).2.1
    = processedEnvs r ++ [row'] ∧
    row_type row' = row_type row ∧ row_filepath row' = row_filepath row.
Proof.
  unfold vault_parse_and_inject.
  destruct (parseDecryptEvalExpand W h decrypted None (processEnv r))
    as [h1 [out|e1]]; simpl.
  - rewrite inject_and_track_eq.
    destruct (inject W _ _ _ _ _) as [h2 [io|e2]]; simpl;
      autorewrite with run_fields; eauto.
  - eauto.
Qed.

(** The two presence checks, and what runs when both pass. *)
Lemma injectEnvVaultFile_missing (p : jsstring) (r : Run) (h : Heap) :
  fs_existsSync W (path_resolve W p) = false →
  _injectEnvVaultFile W p r h
  = (Throw (MISSING_ENV_VAULT_FILE (path_resolve W p)), (add_readableFilepath p r, h)).
Proof. intros He. unfold _injectEnvVaultFile. by rewrite He. Qed.

Lemma injectEnvVaultFile_blank (p : jsstring) (r : Run) (h : Heap) :
  fs_existsSync W (path_resolve W p) = true →
  DOTENV_KEY r = [] →
  _injectEnvVaultFile W p r h
  = (Throw (MISSING_DOTENV_KEY []), (add_readableFilepath p r, h)).
Proof. intros He Hk. unfold _injectEnvVaultFile. rewrite He. simpl. by rewrite Hk. Qed.

Lemma injectEnvVaultFile_checked (p : jsstring) (r : Run) (h : Heap) :
  fs_existsSync W (path_resolve W p) = true →
  DOTENV_KEY r ≠ [] →
  _injectEnvVaultFile W p r h
  = vault_decrypt_and_inject W (path_resolve W p)
      (new_row TYPE_ENV_VAULT_FILE None (Some p)) (add_readableFilepath p r) h.
Proof.
  intros He Hk. unfold _injectEnvVaultFile. rewrite He. simpl.
  by destruct (DOTENV_KEY r).
Qed.

(** No handler touches the flag, the secret or the location of
    [process.env]. *)
Lemma run_env_settings (env : Env) (r : Run) (h : Heap) :
  same_settings r (run_env W env r h).2.1.
Proof.
  unfold run_env, _injectEnvVaultFile, vault_decrypt_and_inject,
    vault_parse_and_inject, _injectEnvFile, _injectEnv, inject_and_track, _inject,
    same_settings.
  repeat case_match; simplify_eq/=; autorewrite with run_fields; done.
Qed.

Lemma run_loop_settings (plan : list Env) (r : Run) (h : Heap) :
  same_settings r (run_loop W plan r h).2.1.
Proof.
  revert r h. induction plan as [|env plan IH]; intros r h; simpl; [done|].
  pose proof (run_env_settings env r h) as (H1 & H2 & H3).
  destruct (run_env W env r h) as [[[]|e] [r' h']]; simpl in *; [|done].
  destruct (IH r' h') as (H1' & H2' & H3'). unfold same_settings. by rewrite H1', H2', H3'.
Qed.

End Vault.

(* ------------------------------------------------------------------------- *)
(** ** Vault sources: presence checks and key rotation *)

Section VaultClaims.
Context (W : World).

(** C3: when the run comes to a vault source (the sources before it having
    returned), a vault file that does not exist makes [run]
    throw the error of code [MISSING_ENV_VAULT_FILE], and a vault file that
    exists with an empty [DOTENV_KEY] makes it throw the error of code
    [MISSING_DOTENV_KEY].  In both cases the records are those of the sources
    before the vault source: the condition is on no record, and no later
    source is handled. *)
Theorem vault_presence_checks_fatal (pre rest : list Env) (p : jsstring)
    (r : Run) (h : Heap) :
  envs r = pre ++ mkEnv TYPE_ENV_VAULT_FILE p :: rest →
  (run_loop W pre r h).1 = Ok tt →
  (fs_existsSync W (path_resolve W p) = false →
   ∃ e, (run W r h).1 = Throw e ∧
        code e = Some (js "MISSING_ENV_VAULT_FILE") ∧
        processedEnvs (run W r h).2.1 = processedEnvs (run_loop W pre r h).2.1) ∧
  (fs_existsSync W (path_resolve W p) = true → DOTENV_KEY r = [] →
   ∃ e, (run W r h).1 = Throw e ∧
        code e = Some (js "MISSING_DOTENV_KEY") ∧
        processedEnvs (run W r h).2.1 = processedEnvs (run_loop W pre r h).2.1).
Proof.
  intros Henvs Hret.
  pose proof (run_loop_settings W pre r h) as (Hkey & _ & _).
  unfold run. rewrite Henvs, run_loop_app by done.
  destruct (run_loop W pre r h) as [res [r1 h1]]. simpl in *.
  rewrite run_env_vault by done. simpl.
  split.
  - intros Hmissing. rewrite injectEnvVaultFile_missing by done.
    eexists. split_and!; reflexivity.
  - intros Hthere Hblank. rewrite injectEnvVaultFile_blank by congruence.
    eexists. split_and!; reflexivity.
Qed.


(** After the two presence checks, with the vault file read: the handler
    is the rotation of the specification on the trimmed keys of
    [DOTENV_KEY], followed by the parsing of what was decrypted. *)
Lemma injectEnvVaultFile_rotation (p : jsstring) (r : Run) (h : Heap)
    (src : jsstring) :
  fs_existsSync W (path_resolve W p) = true →
  DOTENV_KEY r ≠ [] →
  fs_readFileSync W (path_resolve W p) ENCODING = Ok src →
  _injectEnvVaultFile W p r h
  = match first_success (λ key, _decrypted W key (dotenv_parse W src))
            (map trim (split 44%N (DOTENV_KEY r))) with
    | Throw e => (Throw e, (add_readableFilepath p r, h))
    | Ok decrypted =>
        vault_parse_and_inject W decrypted
          (new_row TYPE_ENV_VAULT_FILE None (Some p)) (add_readableFilepath p r) h
    end.
Proof.
  intros Hthere Hkey Hread. rewrite injectEnvVaultFile_checked by done.
  unfold vault_decrypt_and_inject, _parsedVault. rewrite Hread.
  by rewrite decrypt_loop_first_success.
Qed.

Lemma vault_parse_and_inject_recorded (plaintext p : jsstring) (r : Run)
    (h : Heap) :
  vault_recorded W plaintext p r h
    (vault_parse_and_inject W (Some plaintext)
       (new_row TYPE_ENV_VAULT_FILE None (Some p)) (add_readableFilepath p r) h).
Proof.
  unfold vault_recorded, vault_parse_and_inject.
  change (processEnv (add_readableFilepath p r)) with (processEnv r).
  destruct (parseDecryptEvalExpand W h (Some plaintext) None (processEnv r))
    as [h1 [parsed|e]].
  - rewrite inject_and_track_eq.
    change (processEnv (add_readableFilepath p r)) with (processEnv r).
    change (overload (add_readableFilepath p r)) with (overload r).
    destruct (inject W h1 (out_processEnv parsed) (out_parsed parsed)
                (overload r) (processEnv r)) as [h2 [io|e]]; simpl;
      autorewrite with run_fields; simpl;
      (split; [reflexivity|]); eexists; split_and!; reflexivity.
  - simpl. split; [reflexivity|]. eexists. split_and!; reflexivity.
Qed.

(** C9: the check for a blank [DOTENV_KEY] is on its length alone.  With a
    [DOTENV_KEY] of one or more white-space characters and the vault file in
    place, the handler goes on to the rotation of keys: the secret is one
    key, which trimmed is the empty string, and that is what decryption is
    tried with; unless a helper throws it, no error of code
    [MISSING_DOTENV_KEY] comes out.  What the handler then does is told by
    that one attempt: an error of reading the vault file or of [_decrypted]
    on the empty key is what it throws, with no record pushed, and a
    plaintext is parsed and injected into the one record it pushes.  For
    any non-empty secret, the keys between the commas are each trimmed
    before they are used: the handler records the plaintext of the first
    key that [_decrypted] accepts once trimmed, and throws the error of the
    last trimmed key when none is accepted. *)
Theorem whitespace_key_is_not_blank (p : jsstring) (r : Run) (h : Heap) :
  fs_existsSync W (path_resolve W p) = true →
  DOTENV_KEY r ≠ [] →
  Forall (λ c, isWhiteSpace c = true) (DOTENV_KEY r) →
  _injectEnvVaultFile W p r h
  = vault_decrypt_and_inject W (path_resolve W p)
      (new_row TYPE_ENV_VAULT_FILE None (Some p)) (add_readableFilepath p r) h ∧
  _dotenvKeys r = [DOTENV_KEY r] ∧
  trim (DOTENV_KEY r) = [] ∧
  (∀ parsedVault,
     decrypt_loop W (_dotenvKeys r) parsedVault 0 (_dotenvKeys r)
     = match _decrypted W [] parsedVault with
       | Ok decrypted => Ok (Some decrypted)
       | Throw e => Throw e
       end) ∧
  (∀ dotenvKeys parsedVault,
     decrypt_loop W dotenvKeys parsedVault 0 dotenvKeys
     = first_success (λ key, _decrypted W key parsedVault) (map trim dotenvKeys)) ∧
  ((∀ path encoding e, fs_readFileSync W path encoding = Throw e →
                       code e ≠ Some (js "MISSING_DOTENV_KEY")) →
   (∀ key e, parseEnvironmentFromDotenvKey W key = Throw e →
             code e ≠ Some (js "MISSING_DOTENV_KEY")) →
   (∀ ciphertext key e, decrypt W ciphertext key = Throw e →
                        code e ≠ Some (js "MISSING_DOTENV_KEY")) →
   ∀ e, (_injectEnvVaultFile W p r h).1 = Throw e →
        code e ≠ Some (js "MISSING_DOTENV_KEY")) ∧
  (∀ e,
     fs_readFileSync W (path_resolve W p) ENCODING = Throw e →
     _injectEnvVaultFile W p r h = (Throw e, (add_readableFilepath p r, h))) ∧
  (∀ src e,
     fs_readFileSync W (path_resolve W p) ENCODING = Ok src →
     _decrypted W [] (dotenv_parse W src) = Throw e →
     _injectEnvVaultFile W p r h = (Throw e, (add_readableFilepath p r, h))) ∧
  (∀ src plaintext,
     fs_readFileSync W (path_resolve W p) ENCODING = Ok src →
     _decrypted W [] (dotenv_parse W src) = Ok plaintext →
     vault_recorded W plaintext p r h (_injectEnvVaultFile W p r h)) ∧
  (∀ (r' : Run) (h' : Heap) src pre key post plaintext,
     DOTENV_KEY r' ≠ [] →
     fs_readFileSync W (path_resolve W p) ENCODING = Ok src →
     split 44%N (DOTENV_KEY r') = pre ++ key :: post →
     Forall (λ k, isOk (_decrypted W (trim k) (dotenv_parse W src)) = false) pre →
     _decrypted W (trim key) (dotenv_parse W src) = Ok plaintext →
     vault_recorded W plaintext p r' h' (_injectEnvVaultFile W p r' h')) ∧
  (∀ (r' : Run) (h' : Heap) src,
     DOTENV_KEY r' ≠ [] →
     fs_readFileSync W (path_resolve W p) ENCODING = Ok src →
     Forall (λ k, isOk (_decrypted W (trim k) (dotenv_parse W src)) = false)
            (split 44%N (DOTENV_KEY r')) →
     ∃ key e,
       last (split 44%N (DOTENV_KEY r')) = Some key ∧
       _decrypted W (trim key) (dotenv_parse W src) = Throw e ∧
       _injectEnvVaultFile W p r' h' = (Throw e, (add_readableFilepath p r', h'))).
Proof.
  intros Hthere Hkey Hws.
  assert (Hkeys : _dotenvKeys r = [DOTENV_KEY r]).
  { unfold _dotenvKeys. apply split_no_sep.
    eapply Forall_impl; [exact Hws|]. intros c Hc ->. discriminate Hc. }
  assert (Htrim : trim (DOTENV_KEY r) = []) by by apply trim_whitespace.
  assert (Hone : ∀ src,
            fs_readFileSync W (path_resolve W p) ENCODING = Ok src →
            _injectEnvVaultFile W p r h
            = match _decrypted W [] (dotenv_parse W src) with
              | Throw e => (Throw e, (add_readableFilepath p r, h))
              | Ok plaintext =>
                  vault_parse_and_inject W (Some plaintext)
                    (new_row TYPE_ENV_VAULT_FILE None (Some p))
                    (add_readableFilepath p r) h
              end).
  { intros src Hread. rewrite (injectEnvVaultFile_rotation p r h src) by done.
    unfold _dotenvKeys in Hkeys. rewrite Hkeys. simpl. rewrite Htrim.
    by destruct (_decrypted W [] (dotenv_parse W src)). }
  split_and!.
  - by apply injectEnvVaultFile_checked.
  - exact Hkeys.
  - exact Htrim.
  - intros parsedVault. rewrite decrypt_loop_first_success, Hkeys. simpl.
    by rewrite Htrim.
  - intros. apply decrypt_loop_first_success.
  - intros Hfs Hpe Hde e.
    rewrite injectEnvVaultFile_checked by done.
    unfold vault_decrypt_and_inject, _parsedVault.
    destruct (fs_readFileSync W (path_resolve W p) ENCODING) as [src|e0] eqn:Hr.
    2:{ simpl. intros [= <-]. by eapply Hfs. }
    rewrite decrypt_loop_first_success.
    destruct (first_success _ _) as [d|e0] eqn:Hrot.
    { pose proof (vault_parse_and_inject_row W d
                    (new_row TYPE_ENV_VAULT_FILE None (Some p))
                    (add_readableFilepath p r) h) as [Hok _].
      rewrite Hok. done. }
    simpl. intros [= <-].
    apply first_success_throw in Hrot as [key Hatt].
    unfold _decrypted in Hatt.
    destruct (parseEnvironmentFromDotenvKey W key) as [environment|e1] eqn:Hp.
    2:{ simplify_eq. by eapply Hpe. }
    destruct (obj_get _ _) as [[|c ciphertext]|].
    + by simplify_eq.
    + by eapply Hde.
    + by simplify_eq.
  - intros e Hread. rewrite injectEnvVaultFile_checked by done.
    unfold vault_decrypt_and_inject, _parsedVault. by rewrite Hread.
  - intros src e Hread Hatt. by rewrite (Hone src Hread), Hatt.
  - intros src plaintext Hread Hatt. rewrite (Hone src Hread), Hatt.
    apply vault_parse_and_inject_recorded.
  - intros r' h' src pre key post plaintext Hkey' Hread Hsplit Hpre Hwin.
    rewrite (injectEnvVaultFile_rotation p r' h' src) by done.
    rewrite Hsplit, map_app. simpl.
    rewrite (first_success_wins _ _ _ _ plaintext); [|by apply Forall_fmap|done].
    apply vault_parse_and_inject_recorded.
  - intros r' h' src Hkey' Hread Hall.
    destruct (first_success_all_fail
                (λ key, _decrypted W key (dotenv_parse W src))
                (map trim (split 44%N (DOTENV_KEY r'))))
      as (key' & e & Hlast & Hatt & Hfs).
    { intros Hnil%fmap_nil_inv. by apply split_nonempty in Hnil. }
    { by apply Forall_fmap. }
    rewrite fmap_last in Hlast.
    destruct (last (split 44%N (DOTENV_KEY r'))) as [key|] eqn:Hk; simplify_eq/=.
    exists key, e. split_and!; [done|done|].
    by rewrite (injectEnvVaultFile_rotation p r' h' src), Hfs.
Qed.

End VaultClaims.

(** A run that comes to a vault source with no vault file on disk, and one
    whose vault file is there while [DOTENV_KEY] is empty. *)
Lemma vault_presence_checks_fatal_witness :
  (∃ e,
     (run (Demo.world [])
          (new_Run (Demo.world [])
             [mkEnv TYPE_ENV (js "HELLO=one"); mkEnv TYPE_ENV_VAULT_FILE (js ".env.vault")]
             false (js "k?environment=ci") 0 (Demo.heap_of []))
          (Demo.heap_of [])).1 = Throw e ∧
     code e = Some (js "MISSING_ENV_VAULT_FILE")) ∧
  (∃ e,
     (run (Demo.world Demo.vault_files)
          (new_Run (Demo.world Demo.vault_files)
             [mkEnv TYPE_ENV_VAULT_FILE (js ".env.vault")]
             false [] 0 (Demo.heap_of []))
          (Demo.heap_of [])).1 = Throw e ∧
     code e = Some (js "MISSING_DOTENV_KEY")).
Proof.
  split.
  - destruct (vault_presence_checks_fatal (Demo.world [])
                [mkEnv TYPE_ENV (js "HELLO=one")] [] (js ".env.vault")
                (new_Run (Demo.world [])
                   [mkEnv TYPE_ENV (js "HELLO=one");
                    mkEnv TYPE_ENV_VAULT_FILE (js ".env.vault")]
                   false (js "k?environment=ci") 0 (Demo.heap_of []))
                (Demo.heap_of []))
      as [Hmissing _].
    + reflexivity.
    + reflexivity.
    + destruct Hmissing as (e & He & Hc & _); [reflexivity|]. by exists e.
  - destruct (vault_presence_checks_fatal (Demo.world Demo.vault_files)
                [mkEnv TYPE_ENV_FILE (js ".env")] [] (js ".env.vault")
                (new_Run (Demo.world Demo.vault_files)
                   [mkEnv TYPE_ENV_VAULT_FILE (js ".env.vault")]
                   false [] 0 (Demo.heap_of []))
                (Demo.heap_of []))
      as [_ Hblank].
    + reflexivity.
    + reflexivity.
    + destruct Hblank as (e & He & Hc & _); [reflexivity..|]. by exists e.
Defined.



(** A [DOTENV_KEY] of one space. *)
Lemma whitespace_key_is_not_blank_witness :
  _dotenvKeys (new_Run (Demo.world Demo.vault_files) Demo.vault_plan false
                 (js " ") 0 (Demo.heap_of [])) = [js " "] ∧
  trim (js " ") = [] ∧
  (_injectEnvVaultFile (Demo.world Demo.vault_files) (js ".env.vault")
     (new_Run (Demo.world Demo.vault_files) Demo.vault_plan false
        (js " ") 0 (Demo.heap_of []))
     (Demo.heap_of [])).1
  = Throw (mkError (Some (js "INVALID_DOTENV_KEY")) (js "invalid key")).
Proof.
  destruct (whitespace_key_is_not_blank (Demo.world Demo.vault_files)
              (js ".env.vault")
              (new_Run (Demo.world Demo.vault_files) Demo.vault_plan false
                 (js " ") 0 (Demo.heap_of []))
              (Demo.heap_of []))
    as (_ & Hkeys & Htrim & _ & _ & _ & _ & Hthrow & _).
  - reflexivity.
  - discriminate.
  - repeat constructor.
  - split; [exact Hkeys|]. split; [exact Htrim|].
    rewrite (Hthrow
               (js "DOTENV_VAULT_PRODUCTION=good?environment=production|HELLO=world")
               (mkError (Some (js "INVALID_DOTENV_KEY")) (js "invalid key")));
      reflexivity.
Defined.

(* ------------------------------------------------------------------------- *)
(** ** The report: uniqueInjectedKeys and readableFilepaths *)

Lemma foldl_set_add_elem (u keys : list jsstring) (k : jsstring) :
  k ∈ foldl (λ s key, set_add key s) u keys ↔ k ∈ u ∨ k ∈ keys.
Proof.
  revert u. induction keys as [|key keys IH]; intros u; simpl.
  - rewrite elem_of_nil. tauto.
  - rewrite IH, elem_of_set_add, elem_of_cons. tauto.
Qed.

Lemma foldl_set_add_NoDup (u keys : list jsstring) :
  NoDup u → NoDup (foldl (λ s key, set_add key s) u keys).
Proof.
  revert u. induction keys as [|key keys IH]; intros u Hu; simpl; [done|].
  by apply IH, NoDup_set_add.
Qed.

Lemma injected_in_app (rows : list Row) (row : Row) (k : jsstring) :
  injected_in (rows ++ [row]) k ↔
  injected_in rows k ∨
  match row_injected row with Some m => k ∈ obj_keys m | None => False end.
Proof.
  unfold injected_in. split.
  - intros (row' & m & Hin & Hm & Hk).
    apply elem_of_app in Hin as [Hin|Hin%list_elem_of_singleton].
    + left. eauto.
    + subst row'. right. by rewrite Hm.
  - intros [(row' & m & Hin & Hm & Hk)|Hrow].
    + exists row', m. rewrite elem_of_app. auto.
    + destruct (row_injected row) as [m|] eqn:Hm; [|done].
      exists row, m. rewrite elem_of_app, list_elem_of_singleton. auto.
Qed.

Section Report.
Context (W : World).

(** Every handler keeps [uniqueInjectedKeys] the union of the injected keys
    of the records, each key once; it does so whether it returns or throws. *)
Lemma run_env_unique (env : Env) (r : Run) (h : Heap) :
  (∀ k, k ∈ uniqueInjectedKeys r ↔ injected_in (processedEnvs r) k) →
  NoDup (uniqueInjectedKeys r) →
  (∀ k, k ∈ uniqueInjectedKeys (run_env W env r h).2.1
        ↔ injected_in (processedEnvs (run_env W env r h).2.1) k) ∧
  NoDup (uniqueInjectedKeys (run_env W env r h).2.1).
Proof.
  intros Hu Hnd.
  unfold run_env, _injectEnvVaultFile, vault_decrypt_and_inject,
    vault_parse_and_inject, _injectEnvFile, _injectEnv, inject_and_track, _inject.
  repeat case_match; simplify_eq/=; autorewrite with run_fields; simpl;
    (split; [intros k|]);
    rewrite ?foldl_set_add_elem, ?injected_in_app; simpl;
    rewrite ?Hu; auto using foldl_set_add_NoDup; tauto.
Qed.

Lemma run_loop_unique (plan : list Env) (r : Run) (h : Heap) :
  (∀ k, k ∈ uniqueInjectedKeys r ↔ injected_in (processedEnvs r) k) →
  NoDup (uniqueInjectedKeys r) →
  (∀ k, k ∈ uniqueInjectedKeys (run_loop W plan r h).2.1
        ↔ injected_in (processedEnvs (run_loop W plan r h).2.1) k) ∧
  NoDup (uniqueInjectedKeys (run_loop W plan r h).2.1).
Proof.
  revert r h. induction plan as [|env plan IH]; intros r h Hu Hnd; simpl; [done|].
  destruct (run_env_unique env r h Hu Hnd) as [Hu' Hnd'].
  destruct (run_env W env r h) as [[[]|e] [r' h']]; simpl in *; [|done].
  by apply IH.
Qed.

(** C6: in the report of a run that completes, a key is in
    [uniqueInjectedKeys] exactly when it is a key of the [injected] mapping
    of one of the records, and no key is there twice. *)
Theorem unique_injected_keys_union (callerEnvs : list Env) (overload : bool)
    (DOTENV_KEY : jsstring) (processEnv : loc) (h : Heap) (report : Report) :
  (run W (new_Run W callerEnvs overload DOTENV_KEY processEnv h) h).1 = Ok report →
  (∀ k, k ∈ rep_uniqueInjectedKeys report
        ↔ injected_in (rep_processedEnvs report) k) ∧
  NoDup (rep_uniqueInjectedKeys report).
Proof.
  unfold run. set (r := new_Run W callerEnvs overload DOTENV_KEY processEnv h).
  destruct (run_loop_unique (envs r) r h) as [Hu Hnd].
  { intros k. simpl. unfold injected_in. split.
    - intros []%elem_of_nil.
    - intros (row & m & []%elem_of_nil & _). }
  { apply NoDup_nil_2. }
  destruct (run_loop W (envs r) r h) as [[[]|e] [r' h']]; simpl in *; [|done].
  intros [= <-]. done.
Qed.

(** What a handler that returns does to [readableFilepaths]. *)
Lemma run_env_readable (env : Env) (r : Run) (h : Heap) (p : jsstring) :
  (run_env W env r h).1 = Ok tt →
  p ∈ readableFilepaths (run_env W env r h).2.1 ↔
  p ∈ readableFilepaths r ∨
  (value env = p ∧
   ((type env = TYPE_ENV_FILE ∧ file_read_ok W p) ∨
    (type env = TYPE_ENV_VAULT_FILE ∧ vault_read_ok W p))).
Proof.
  unfold run_env.
  destruct (decide (type env = TYPE_ENV_VAULT_FILE)) as [Hv|Hv];
    [|destruct (decide (type env = TYPE_ENV_FILE)) as [Hf|Hf];
      [|destruct (decide (type env = TYPE_ENV)) as [Hi|Hi]]].
  - unfold _injectEnvVaultFile, vault_decrypt_and_inject, _parsedVault,
      vault_parse_and_inject, vault_read_ok, inject_and_track, _inject.
    destruct (fs_existsSync W (path_resolve W (value env))) eqn:Hex; simpl; [|done].
    destruct (length (DOTENV_KEY r) <? 1); [done|].
    simpl. destruct (fs_readFileSync W (path_resolve W (value env)) ENCODING)
      as [src|e] eqn:Hread; [|done].
    destruct (decrypt_loop W _ _ _ _); [|done].
    intros _.
    assert (Hrf : p ∈ set_add (value env) (readableFilepaths r) ↔
              p ∈ readableFilepaths r ∨
              value env = p ∧
              (type env = TYPE_ENV_FILE ∧ file_read_ok W p
               ∨ type env = TYPE_ENV_VAULT_FILE ∧
                 fs_existsSync W (path_resolve W p) = true ∧
                 ∃ src, fs_readFileSync W (path_resolve W p) ENCODING = Ok src)).
    { rewrite elem_of_set_add. split.
      - intros [->|?]; [|by left]. right. split; [done|]. right. eauto.
      - intros [?|[<- _]]; auto. }
    repeat case_match; simplify_eq/=; autorewrite with run_fields; exact Hrf.
  - intros _. unfold _injectEnvFile, file_read_ok, inject_and_track, _inject.
    destruct (detectEncoding W (path_resolve W (value env))) as [enc|e] eqn:Hd.
    2:{ simpl. split; [by left|].
        intros [?|[<- [(_ & enc & src & Hd' & _)|[Ht _]]]]; [done|congruence..]. }
    destruct (fs_readFileSync W (path_resolve W (value env)) enc)
      as [src|e] eqn:Hread.
    2:{ simpl. split; [by left|].
        intros [?|[<- [(_ & enc' & src & Hd' & Hr')|[Ht _]]]]; [done|congruence..]. }
    assert (Hrf : p ∈ set_add (value env) (readableFilepaths r) ↔
              p ∈ readableFilepaths r ∨
              value env = p ∧
              (type env = TYPE_ENV_FILE ∧
               (∃ encoding src,
                  detectEncoding W (path_resolve W p) = Ok encoding ∧
                  fs_readFileSync W (path_resolve W p) encoding = Ok src)
               ∨ type env = TYPE_ENV_VAULT_FILE ∧ vault_read_ok W p)).
    { rewrite elem_of_set_add. split.
      - intros [->|?]; [|by left]. right. split; [done|]. left. eauto.
      - intros [?|[<- _]]; auto. }
    repeat case_match; simplify_eq/=; autorewrite with run_fields; exact Hrf.
  - intros _. unfold _injectEnv, inject_and_track, _inject.
    assert (Hrf : p ∈ readableFilepaths r ↔
              p ∈ readableFilepaths r ∨
              value env = p ∧
              (type env = TYPE_ENV_FILE ∧ file_read_ok W p
               ∨ type env = TYPE_ENV_VAULT_FILE ∧ vault_read_ok W p)).
    { split; [by left|]. intros [?|[_ [[? _]|[? _]]]]; done. }
    repeat case_match; simplify_eq/=; autorewrite with run_fields; exact Hrf.
  - intros _. simpl. split; [by left|]. intros [?|[_ [[? _]|[? _]]]]; done.
Qed.

Lemma run_loop_readable (plan : list Env) (r : Run) (h : Heap) (p : jsstring) :
  (run_loop W plan r h).1 = Ok tt →
  p ∈ readableFilepaths (run_loop W plan r h).2.1 ↔
  p ∈ readableFilepaths r ∨
  ∃ env, env ∈ plan ∧ value env = p ∧
    ((type env = TYPE_ENV_FILE ∧ file_read_ok W p) ∨
     (type env = TYPE_ENV_VAULT_FILE ∧ vault_read_ok W p)).
Proof.
  revert r h. induction plan as [|env plan IH]; intros r h; simpl.
  - intros _. split; [by left|]. intros [?|(env & []%elem_of_nil & _)]. done.
  - pose proof (run_env_readable env r h p) as Henv.
    destruct (run_env W env r h) as [[[]|e] [r' h']]; simpl in *; [|done].
    intros Hret. rewrite (IH r' h' Hret), Henv by done.
    setoid_rewrite elem_of_cons. split.
    + intros [[?|?]|(env' & Hin & ?)]; [by left|right; exists env; auto|].
      right. exists env'. auto.
    + intros [?|(env' & [->|Hin] & ?)]; [by left; left|by left; right|].
      right. exists env'. auto.
Qed.

(** C8: in the report of a run that completes, [readableFilepaths] holds
    exactly the paths of the File sources of the plan whose file was read
    and of the Vault sources of the plan, whose file exists and was read;
    the path of a file that could not be read is not in it. *)
Theorem readable_filepaths_were_read (callerEnvs : list Env) (overload : bool)
    (DOTENV_KEY : jsstring) (processEnv : loc) (h : Heap) (report : Report) :
  (run W (new_Run W callerEnvs overload DOTENV_KEY processEnv h) h).1 = Ok report →
  ∀ p, p ∈ rep_readableFilepaths report ↔
       ∃ env, env ∈ envs (new_Run W callerEnvs overload DOTENV_KEY processEnv h) ∧
              value env = p ∧
              ((type env = TYPE_ENV_FILE ∧ file_read_ok W p) ∨
               (type env = TYPE_ENV_VAULT_FILE ∧ vault_read_ok W p)).
Proof.
  unfold run. set (r := new_Run W callerEnvs overload DOTENV_KEY processEnv h).
  intros Hrun p.
  pose proof (run_loop_readable (envs r) r h p) as Hp.
  destruct (run_loop W (envs r) r h) as [[[]|e] [r' h']]; simpl in *; [|done].
  injection Hrun as <-. simpl. rewrite Hp by done.
  split; [intros [[]%elem_of_nil|?]; done|by right].
Qed.

End Report.

(* ------------------------------------------------------------------------- *)
(** ** Injection without overload *)

Lemma inject_step_keeps (target ambient : loc) (k v : jsstring)
    (h : Heap) (io : InjectOut) (kv : jsstring * jsstring) :
  heap_get h ambient k = Some v →
  heap_get (inject_step target false ambient (h, io) kv).1 ambient k = Some v ∧
  (obj_get (preExisted io) k = Some v ∨ kv.1 = k →
   obj_get (preExisted (inject_step target false ambient (h, io) kv).2) k = Some v).
Proof.
  intros Hk. destruct kv as [key val]. unfold inject_step.
  destruct (heap_get h ambient key) as [existing|] eqn:Hkey; simpl.
  - split; [done|]. destruct (decide (key = k)) as [->|Hne].
    + intros _. rewrite Hk in Hkey. injection Hkey as <-. apply obj_get_set_eq.
    + intros [Hpre|?]; [|done]. by rewrite obj_get_set_ne.
  - assert (key ≠ k) by congruence. split.
    + by rewrite heap_get_set_ne.
    + intros [Hpre|?]; done.
Qed.

Lemma inject_foldl_keeps (target ambient : loc) (k v : jsstring)
    (parsed : Obj) (h : Heap) (io : InjectOut) :
  heap_get h ambient k = Some v →
  heap_get (foldl (inject_step target false ambient) (h, io) parsed).1 ambient k
  = Some v ∧
  (obj_get (preExisted io) k = Some v ∨ k ∈ obj_keys parsed →
   obj_get (preExisted (foldl (inject_step target false ambient) (h, io) parsed).2) k
   = Some v).
Proof.
  revert h io. induction parsed as [|kv parsed IH]; intros h io Hk; simpl.
  - split; [done|]. intros [?|[]%elem_of_nil]. done.
  - destruct (inject_step_keeps target ambient k v h io kv Hk) as [Hh Hpre].
    destruct (inject_step target false ambient (h, io) kv) as [h1 io1].
    destruct (IH h1 io1 Hh) as [Hh' Hpre']. split; [done|].
    intros [?|[->|?]%elem_of_cons]; apply Hpre'; auto.
Qed.

(** Without overload, the injector of the specification leaves a key of the
    ambient namespace as it is and reports it under [preExisted]. *)
Lemma inject_spec_keeps (target ambient : loc) (k v : jsstring)
    (parsed : Obj) (h : Heap) :
  heap_get h ambient k = Some v →
  ∃ io,
    (inject_spec h target parsed false ambient).2 = Ok io ∧
    heap_get (inject_spec h target parsed false ambient).1 ambient k = Some v ∧
    (k ∈ obj_keys parsed → obj_get (preExisted io) k = Some v).
Proof.
  intros Hk. unfold inject_spec.
  destruct (inject_foldl_keeps target ambient k v parsed h (mkInjectOut [] []) Hk)
    as [Hh Hpre].
  destruct (foldl _ _ _) as [h' io]. exists io. simpl in *. auto.
Qed.

Section NoOverload.
Context (W : World) (key v : jsstring).
Hypothesis inject_is_spec : inject W = inject_spec.

Lemma existing_kept_push (row : Row) (r r' : Run) (h h' : Heap) :
  existing_kept key v r h →
  processEnv r' = processEnv r → processedEnvs r' = processedEnvs r →
  heap_get h' (processEnv r) key = Some v →
  (∀ parsed, row_parsed row = Some parsed → key ∈ obj_keys parsed →
             ∃ pre, row_preExisted row = Some pre ∧ obj_get pre key = Some v) →
  existing_kept key v (push_processedEnv row r') h'.
Proof.
  intros [_ Hrows] Hpe Hpr Hh Hrow. split; simpl.
  - by rewrite Hpe.
  - intros row' parsed [Hin| ->%list_elem_of_singleton]%elem_of_app.
    + rewrite Hpr in Hin. by apply Hrows.
    + apply Hrow.
Qed.

(** Parsing, injecting and pushing the row, as the three handlers do it. *)
Lemma parse_inject_push_keeps (src privateKey : option jsstring) (row : Row)
    (r0 r r1 : Run) (h0 h : Heap) (on_error : Row → JsError → Row) :
  existing_kept key v r0 h0 →
  heap_get h (processEnv r0) key = Some v →
  pdee_keeps W (processEnv r0) key →
  processEnv r = processEnv r0 → processedEnvs r = processedEnvs r0 →
  overload r1 = false →
  processEnv r1 = processEnv r0 → processedEnvs r1 = processedEnvs r0 →
  row_parsed row = None →
  (∀ row e, row_parsed (on_error row e) = row_parsed row) →
  let '(tried, (row', r', h')) :=
    match parseDecryptEvalExpand W h src privateKey (processEnv r) with
    | (h, Throw e) => (Throw e, (row, r, h))
    | (h, Ok out) =>
        inject_and_track W out
          (row_set_parsed row (out_parsed out) (out_warnings out)) r1 h
    end in
  existing_kept key v
    (push_processedEnv
       match tried with Ok _ => row' | Throw e => on_error row' e end r') h'.
Proof.
  intros Hinv Hh Hpdee Hpe Hpr Hov Hpe1 Hpr1 Hrow Herr.
  pose proof (Hpdee h src privateKey) as Hh1.
  rewrite Hh, <- Hpe in Hh1.
  destruct (parseDecryptEvalExpand W h src privateKey (processEnv r))
    as [h1 [out|e]]; simpl in Hh1.
  - rewrite inject_and_track_eq.
    rewrite inject_is_spec, Hov.
    rewrite Hpe, <- Hpe1 in Hh1.
    destruct (inject_spec_keeps (out_processEnv out) (processEnv r1) key v
                (out_parsed out) h1 Hh1) as (io & Hio & Hh2 & Hpre).
    destruct (inject_spec h1 _ _ false _) as [h2 res]. simpl in *. subst res.
    apply existing_kept_push with (r := r0) (h := h0); [done|..].
    + autorewrite with run_fields. congruence.
    + autorewrite with run_fields. congruence.
    + by rewrite <- Hpe1.
    + simpl. intros parsed [= <-] Hin. eauto.
  - apply existing_kept_push with (r := r0) (h := h0); [done|done|done|..].
    + by rewrite <- Hpe.
    + intros parsed. by rewrite Herr, Hrow.
Qed.

Lemma injectEnv_keeps (s : jsstring) (r : Run) (h : Heap) :
  existing_kept key v r h → pdee_keeps W (processEnv r) key →
  overload r = false →
  existing_kept key v (_injectEnv W s r h).2.1 (_injectEnv W s r h).2.2.
Proof.
  intros Hinv Hpdee Hov.
  pose proof (parse_inject_push_keeps (Some s) None
                (new_row TYPE_ENV (Some s) None) r r (add_readableString s r)
                h h row_set_error Hinv (proj1 Hinv) Hpdee) as H.
  unfold _injectEnv.
  destruct (match parseDecryptEvalExpand W h (Some s) None (processEnv r) with
            | (h1, Throw e) => _ | (h1, Ok out) => _ end)
    as [tried [[row' r'] h']].
  by apply H.
Qed.

Lemma injectEnvFile_keeps (p : jsstring) (r : Run) (h : Heap) :
  existing_kept key v r h → pdee_keeps W (processEnv r) key →
  overload r = false →
  existing_kept key v (_injectEnvFile W p r h).2.1 (_injectEnvFile W p r h).2.2.
Proof.
  intros Hinv Hpdee Hov. unfold _injectEnvFile.
  assert (Hfail : ∀ e : JsError,
            existing_kept key v
              (push_processedEnv
                 (if decide (code e = Some (js "ENOENT"))
                  then row_set_error (new_row TYPE_ENV_FILE None (Some p))
                         (MISSING_ENV_FILE p (path_resolve W p))
                  else row_set_error (new_row TYPE_ENV_FILE None (Some p)) e)
                 r) h).
  { intros e. apply existing_kept_push with (r := r) (h := h);
      [done|done|done|apply Hinv|].
    intros parsed. by case_decide. }
  assert (Hfail' : ∀ e : JsError,
            existing_kept key v
              (push_processedEnv
                 (if decide (code e = Some (js "ENOENT"))
                  then row_set_error (new_row TYPE_ENV_FILE None (Some p))
                         (MISSING_ENV_FILE p (path_resolve W p))
                  else row_set_error (new_row TYPE_ENV_FILE None (Some p)) e)
                 (add_readableFilepath p r)) h).
  { intros e. apply existing_kept_push with (r := r) (h := h);
      [done|done|done|apply Hinv|].
    intros parsed. by case_decide. }
  destruct (detectEncoding W (path_resolve W p)) as [enc|e]; [|apply Hfail].
  destruct (fs_readFileSync W (path_resolve W p) enc) as [src|e]; [|apply Hfail].
  destruct (_determinePrivateKey W p) as [pk|e]; [|apply Hfail'].
  pose proof (parse_inject_push_keeps (Some src) pk
                (new_row TYPE_ENV_FILE None (Some p))
                r (add_readableFilepath p r) (add_readableFilepath p r) h h
                (λ row e, if decide (code e = Some (js "ENOENT"))
                          then row_set_error row (MISSING_ENV_FILE p (path_resolve W p))
                          else row_set_error row e)
                Hinv (proj1 Hinv) Hpdee) as H.
  cbv beta in H.
  destruct (match parseDecryptEvalExpand W h (Some src) pk
                    (processEnv (add_readableFilepath p r)) with
            | (h1, Throw e) => _ | (h1, Ok out) => _ end)
    as [tried [[row' r'] h']].
  apply H; try done. intros row e. by case_decide.
Qed.

Lemma injectEnvVaultFile_keeps (p : jsstring) (r : Run) (h : Heap) :
  existing_kept key v r h → pdee_keeps W (processEnv r) key →
  overload r = false →
  existing_kept key v (_injectEnvVaultFile W p r h).2.1
                      (_injectEnvVaultFile W p r h).2.2.
Proof.
  intros Hinv Hpdee Hov.
  unfold _injectEnvVaultFile, vault_decrypt_and_inject.
  destruct (negb _); [exact Hinv|].
  destruct (_ <? _); [exact Hinv|].
  destruct (_parsedVault W _) as [parsedVault|e]; [|exact Hinv].
  destruct (decrypt_loop W _ _ _ _) as [decrypted|e]; [|exact Hinv].
  pose proof (parse_inject_push_keeps decrypted None
                (new_row TYPE_ENV_VAULT_FILE None (Some p))
                r (add_readableFilepath p r) (add_readableFilepath p r) h h
                row_set_error Hinv (proj1 Hinv) Hpdee) as H.
  unfold vault_parse_and_inject.
  destruct (match parseDecryptEvalExpand W h decrypted None
                    (processEnv (add_readableFilepath p r)) with
            | (h1, Throw e) => _ | (h1, Ok out) => _ end)
    as [tried [[row' r'] h']].
  by apply H.
Qed.

Lemma run_env_keeps (env : Env) (r : Run) (h : Heap) :
  existing_kept key v r h → pdee_keeps W (processEnv r) key →
  overload r = false →
  existing_kept key v (run_env W env r h).2.1 (run_env W env r h).2.2.
Proof.
  intros Hinv Hpdee Hov. unfold run_env.
  repeat case_decide;
    auto using injectEnv_keeps, injectEnvFile_keeps, injectEnvVaultFile_keeps.
Qed.

Lemma run_loop_keeps (plan : list Env) (r : Run) (h : Heap) :
  existing_kept key v r h → pdee_keeps W (processEnv r) key →
  overload r = false →
  existing_kept key v (run_loop W plan r h).2.1 (run_loop W plan r h).2.2.
Proof.
  revert r h. induction plan as [|env plan IH]; intros r h Hinv Hpdee Hov; simpl;
    [done|].
  pose proof (run_env_keeps env r h Hinv Hpdee Hov) as Hinv'.
  pose proof (run_env_settings W env r h) as (_ & Hov' & Hpe').
  destruct (run_env W env r h) as [[[]|e] [r' h']]; simpl in *; [|done].
  apply IH; [done|by rewrite Hpe'|congruence].
Qed.

End NoOverload.

(** C2: in a run without overload, with the injector of the specification
    and an expander that leaves the key alone, a key that [process.env] has
    before the run has the same value after it, and every record whose
    [parsed] defines the key has it in [preExisted] with that value; the
    records of the report are those records. *)
Theorem existing_keys_kept (W : World) (callerEnvs : list Env)
    (DOTENV_KEY : jsstring) (processEnv : loc) (h : Heap) (key v : jsstring) :
  inject W = inject_spec →
  pdee_keeps W processEnv key →
  heap_get h processEnv key = Some v →
  let out := run W (new_Run W callerEnvs false DOTENV_KEY processEnv h) h in
  heap_get out.2.2 processEnv key = Some v ∧
  (∀ row parsed,
     row ∈ processedEnvs out.2.1 → row_parsed row = Some parsed →
     key ∈ obj_keys parsed →
     ∃ pre, row_preExisted row = Some pre ∧ obj_get pre key = Some v) ∧
  (∀ report, out.1 = Ok report → rep_processedEnvs report = processedEnvs out.2.1).
Proof.
  intros Hinj Hpdee Hkey. unfold run.
  set (r := new_Run W callerEnvs false DOTENV_KEY processEnv h).
  pose proof (run_loop_keeps W key v Hinj (envs r) r h) as Hkeep.
  pose proof (run_loop_settings W (envs r) r h) as (_ & _ & Hpe).
  destruct (run_loop W (envs r) r h) as [[[]|e] [r' h']]; simpl in *.
  - destruct Hkeep as [Hh Hrows]; [split; [done|]|done|done|].
    { intros row parsed []%elem_of_nil. }
    rewrite Hpe in Hh. split_and!; [done|done|]. by intros report [= <-].
  - destruct Hkeep as [Hh Hrows]; [split; [done|]|done|done|].
    { intros row parsed []%elem_of_nil. }
    rewrite Hpe in Hh. split_and!; [done|done|]. intros report [=].
Qed.

(** The scenario of the specification: [HELLO] is [original] in
    [process.env] and the Inline source [HELLO=two] runs without overload. *)
Lemma existing_keys_kept_witness :
  heap_get
    (run (Demo.world [])
         (new_Run (Demo.world []) [mkEnv TYPE_ENV (js "HELLO=two")] false [] 0
                  (Demo.heap_of [(js "HELLO", js "original")]))
         (Demo.heap_of [(js "HELLO", js "original")])).2.2
    0 (js "HELLO")
  = Some (js "original").
Proof.
  apply (existing_keys_kept (Demo.world []) [mkEnv TYPE_ENV (js "HELLO=two")] []
           0 (Demo.heap_of [(js "HELLO", js "original")]) (js "HELLO")
           (js "original")).
  - reflexivity.
  - intros h src privateKey. unfold Demo.world, parseDecryptEvalExpand, Demo.pdee.
    by destruct src.
  - reflexivity.
Defined.

(** The scenario of the specification: an empty [process.env], a [.env]
    file that holds [HELLO=world], no source from the caller. *)
Lemma unique_injected_keys_union_witness :
  ∃ report,
    (run (Demo.world Demo.vault_files)
         (new_Run (Demo.world Demo.vault_files) [] false [] 0 (Demo.heap_of []))
         (Demo.heap_of [])).1 = Ok report ∧
    rep_uniqueInjectedKeys report = [js "HELLO"] ∧
    NoDup (rep_uniqueInjectedKeys report).
Proof.
  eexists. split; [vm_compute; reflexivity|]. split; [reflexivity|].
  apply (unique_injected_keys_union (Demo.world Demo.vault_files) [] false [] 0
           (Demo.heap_of [])).
  vm_compute. reflexivity.
Defined.

(** A plan of a file that is there and a file that is not. *)
Lemma readable_filepaths_were_read_witness :
  ∃ report,
    (run (Demo.world Demo.vault_files)
         (new_Run (Demo.world Demo.vault_files)
            [mkEnv TYPE_ENV_FILE (js ".env"); mkEnv TYPE_ENV_FILE (js ".env.ci")]
            false [] 0 (Demo.heap_of []))
         (Demo.heap_of [])).1 = Ok report ∧
    rep_readableFilepaths report = [js ".env"] ∧
    (js ".env" ∈ rep_readableFilepaths report ↔
     ∃ env,
       env ∈ [mkEnv TYPE_ENV_FILE (js ".env"); mkEnv TYPE_ENV_FILE (js ".env.ci")] ∧
       value env = js ".env" ∧
       ((type env = TYPE_ENV_FILE ∧
         file_read_ok (Demo.world Demo.vault_files) (js ".env")) ∨
        (type env = TYPE_ENV_VAULT_FILE ∧
         vault_read_ok (Demo.world Demo.vault_files) (js ".env")))).
Proof.
  eexists. split; [vm_compute; reflexivity|]. split; [reflexivity|].
  apply (readable_filepaths_were_read (Demo.world Demo.vault_files)
           [mkEnv TYPE_ENV_FILE (js ".env"); mkEnv TYPE_ENV_FILE (js ".env.ci")]
           false [] 0 (Demo.heap_of [])).
  vm_compute. reflexivity.
Defined.

(** A File source whose file is missing, in a world with no file. *)
Lemma inline_and_file_failures_recorded_witness :
  ∃ row,
    processedEnvs
      (_injectEnvFile (Demo.world []) (js ".env")
         (new_Run (Demo.world []) [] false [] 0 (Demo.heap_of []))
         (Demo.heap_of [])).2.1 = [row] ∧
    row_error row = Some (MISSING_ENV_FILE (js ".env") (js "/app/.env")).
Proof.
  destruct (inline_and_file_failures_recorded (Demo.world [])
              (new_Run (Demo.world []) [] false [] 0 (Demo.heap_of []))
              (Demo.heap_of []))
    as (_ & Hfile & _).
  destruct (Hfile (js ".env")) as (_ & row & Hrows & _ & _ & Hmissing & _).
  exists row. split; [exact Hrows|].
  apply Hmissing. exists Demo.ENOENT. split; [reflexivity|]. left. reflexivity.
Defined.

(** A vault source adds its path to [this.readableFilepaths] before it looks
    for the file.  When the file is missing the run throws and hands back no
    report; the path then stays in the field of the [Run] object. *)
Lemma missing_vault_path_on_aborted_run :
  let out :=
    run (Demo.world [])
        (new_Run (Demo.world []) [] false (js "k?environment=ci") 0 (Demo.heap_of []))
        (Demo.heap_of []) in
  isOk out.1 = false ∧ readableFilepaths out.2.1 = [js ".env.vault"].
Proof. vm_compute. split; reflexivity. Qed.

(* ------------------------------------------------------------------------- *)
(** ** The scenarios of the specification, run in the small world *)

(** An empty [process.env] and a [.env] file that holds [HELLO=world]: the
    plan is the [.env] file, [process.env] becomes [{HELLO: world}] and
    [uniqueInjectedKeys] is [{HELLO}]. *)
Example scenario_default_file :
  let W := Demo.world Demo.vault_files in
  let r := new_Run W [] false [] 0 (Demo.heap_of []) in
  let out := run W r (Demo.heap_of []) in
  envs r = [mkEnv TYPE_ENV_FILE (js ".env")] ∧
  out.2.2 !!! 0 = [(js "HELLO", js "world")] ∧
  uniqueInjectedKeys out.2.1 = [js "HELLO"].
Proof. vm_compute. split_and!; reflexivity. Qed.

(** [HELLO] is [original] and the Inline source [HELLO=two] runs without
    overload: [process.env] stays as it is and the record has [HELLO] under
    [preExisted] with [original]. *)
Example scenario_pre_existing :
  let W := Demo.world [] in
  let h := Demo.heap_of [(js "HELLO", js "original")] in
  let r := new_Run W [mkEnv TYPE_ENV (js "HELLO=two")] false [] 0 h in
  let out := run W r h in
  out.2.2 !!! 0 = [(js "HELLO", js "original")] ∧
  row_preExisted <$> processedEnvs out.2.1
  = [None; Some [(js "HELLO", js "original")]].
Proof. vm_compute. split; reflexivity. Qed.

(** A secret of a bad key and a good key: the vault is decrypted with the
    good key and no record has an error. *)
Example scenario_rotation :
  let W := Demo.world Demo.vault_files in
  let r := new_Run W [] false Demo.rotated_keys 0 (Demo.heap_of []) in
  let out := run W r (Demo.heap_of []) in
  envs r = [mkEnv TYPE_ENV_VAULT_FILE (js ".env.vault")] ∧
  out.2.2 !!! 0 = [(js "HELLO", js "world")] ∧
  row_error <$> processedEnvs out.2.1 = [None].
Proof. vm_compute. split_and!; reflexivity. Qed.

(* ========================================================================= *)
(** * Further properties of the code *)

(* ------------------------------------------------------------------------- *)
(** ** The plan *)

Section PlanMore.
Context (W : World).

Lemma determineEnvsFromDotenvPrivateKey_foldl (acc : list Env)
    (names : list jsstring) :
  foldl (λ envs privateKeyName,
           let filename := guessPrivateKeyFilename W privateKeyName in
           envs ++ [mkEnv TYPE_ENV_FILE filename])
        acc names
  = acc ++ ((λ name, mkEnv TYPE_ENV_FILE (guessPrivateKeyFilename W name)) <$> names).
Proof.
  revert acc. induction names as [|name names IH]; intros acc; simpl.
  - by rewrite app_nil_r.
  - rewrite IH. by rewrite <- app_assoc.
Qed.

Lemma determineEnvsFromDotenvPrivateKey_map (names : list jsstring) :
  _determineEnvsFromDotenvPrivateKey W names
  = (λ name, mkEnv TYPE_ENV_FILE (guessPrivateKeyFilename W name)) <$> names.
Proof. apply (determineEnvsFromDotenvPrivateKey_foldl []). Qed.

(** The kind of file that [_determineEnvs] looks for in the caller's list. *)
Lemma determineEnvs_cases (names : list jsstring) (envs : list Env)
    (key : jsstring) :
  envs ≠ [] →
  let wanted := if decide (key = []) then TYPE_ENV_FILE else TYPE_ENV_VAULT_FILE in
  (Exists (λ env, type env = wanted) envs ∧ _determineEnvs W names envs key = envs) ∨
  (¬ Exists (λ env, type env = wanted) envs ∧
   _determineEnvs W names envs key = mkEnv wanted (js ".env" ++ if decide (key = []) then [] else js ".vault") :: envs).
Proof.
  intros Hne wanted.
  pose proof (fileAlreadySpecified_foldl key envs false) as Hflag.
  unfold _determineEnvs. destruct envs as [|env envs']; [done|].
  change (length (env :: envs') <=? 0) with false. cbv iota.
  destruct (foldl (fileAlreadySpecified_step key) false (env :: envs')).
  - left. split; [|done]. destruct Hflag as [Hflag _].
    destruct (Hflag eq_refl) as [?|[[Hk He]|[Hk He]]]; [done|..];
      subst wanted; by destruct (decide (key = [])).
  - right. split.
    + intros He. destruct Hflag as [_ Hflag]. enough (false = true) by done.
      apply Hflag. right. subst wanted. destruct (decide (key = [])); auto.
    + subst wanted. destruct key; reflexivity.
Qed.

(** X1: with no source from the caller and one or more names of
    [process.env] that start with [DOTENV_PRIVATE_KEY], the plan is one File
    source per such name, in the order of the names, with the file name
    guessed from the name; [DOTENV_KEY] has no part in it. *)
Theorem private_key_names_plan (overload : bool) (DOTENV_KEY : jsstring)
    (processEnv : loc) (h : Heap) :
  List.filter (λ key, startsWith key (js "DOTENV_PRIVATE_KEY"))
              (obj_keys (h !!! processEnv)) ≠ [] →
  envs (new_Run W [] overload DOTENV_KEY processEnv h)
  = (λ name, mkEnv TYPE_ENV_FILE (guessPrivateKeyFilename W name))
      <$> List.filter (λ key, startsWith key (js "DOTENV_PRIVATE_KEY"))
                      (obj_keys (h !!! processEnv)).
Proof.
  intros Hnames. unfold new_Run. cbn [envs].
  destruct (List.filter _ _) as [|name names] eqn:Hf; [done|].
  unfold _determineEnvs. cbn [length Nat.leb Nat.ltb].
  apply determineEnvsFromDotenvPrivateKey_map.
Qed.

(** X2: the plan is never empty.  When the caller gives sources, or no name
    of [process.env] starts with [DOTENV_PRIVATE_KEY], the plan holds a vault
    file if [DOTENV_KEY] is set and a file if it is not; in the remaining
    case every source of the plan is a file. *)
Theorem plan_has_a_file (names : list jsstring) (envs : list Env)
    (DOTENV_KEY : jsstring) :
  _determineEnvs W names envs DOTENV_KEY ≠ [] ∧
  (envs ≠ [] ∨ names = [] →
   Exists (λ env, type env = if decide (DOTENV_KEY = []) then TYPE_ENV_FILE
                             else TYPE_ENV_VAULT_FILE)
          (_determineEnvs W names envs DOTENV_KEY)) ∧
  (envs = [] → names ≠ [] →
   Forall (λ env, type env = TYPE_ENV_FILE) (_determineEnvs W names envs DOTENV_KEY)).
Proof.
  destruct envs as [|env envs'].
  - unfold _determineEnvs. cbn [length Nat.leb].
    destruct names as [|name names].
    + cbn [length Nat.ltb Nat.leb]. destruct DOTENV_KEY as [|c key].
      * split_and!; [done| |done]. intros _. rewrite decide_True by done.
        apply Exists_cons_hd. reflexivity.
      * split_and!; [done| |done]. intros _. rewrite decide_False by done.
        apply Exists_cons_hd. reflexivity.
    + change (0 <? length (name :: names)) with true. cbv iota.
      rewrite determineEnvsFromDotenvPrivateKey_map. split_and!.
      * done.
      * intros [?|?]; done.
      * intros _ _. apply Forall_fmap, Forall_forall. done.
  - destruct (determineEnvs_cases names (env :: envs') DOTENV_KEY)
      as [[He ->]|[_ ->]]; [done|..].
    + split_and!; [done|by intros _|done].
    + split_and!; [done| |done]. intros _. apply Exists_cons_hd. reflexivity.
Qed.

(** X3: building the plan of a plan changes nothing, when the caller gives
    sources or no name of [process.env] starts with [DOTENV_PRIVATE_KEY].
    In the remaining case with [DOTENV_KEY] set, the plan of file sources
    gets the default vault file in front. *)
Theorem determineEnvs_idempotent (names : list jsstring) (envs : list Env)
    (DOTENV_KEY : jsstring) :
  (envs ≠ [] ∨ names = [] →
   _determineEnvs W names (_determineEnvs W names envs DOTENV_KEY) DOTENV_KEY
   = _determineEnvs W names envs DOTENV_KEY) ∧
  (envs = [] → names ≠ [] → DOTENV_KEY ≠ [] →
   _determineEnvs W names (_determineEnvs W names envs DOTENV_KEY) DOTENV_KEY
   = DEFAULT_ENV_VAULTS ++ _determineEnvs W names envs DOTENV_KEY).
Proof.
  split.
  - intros Hcase.
    assert (Hhas : ∃ plan,
              _determineEnvs W names envs DOTENV_KEY = plan ∧ plan ≠ [] ∧
              Exists (λ env, type env = if decide (DOTENV_KEY = [])
                                        then TYPE_ENV_FILE
                                        else TYPE_ENV_VAULT_FILE) plan).
    { destruct envs as [|env envs'].
      - destruct Hcase as [?| ->]; [done|]. unfold _determineEnvs.
        cbn [length Nat.leb Nat.ltb]. destruct DOTENV_KEY as [|c key].
        + eexists. split_and!; [reflexivity|done|].
          rewrite decide_True by done. apply Exists_cons_hd. reflexivity.
        + eexists. split_and!; [reflexivity|done|].
          rewrite decide_False by done. apply Exists_cons_hd. reflexivity.
      - destruct (determineEnvs_cases names (env :: envs') DOTENV_KEY)
          as [[He ->]|[_ ->]]; [done|..].
        + eexists. split_and!; [reflexivity|done|done].
        + eexists. split_and!; [reflexivity|done|].
          apply Exists_cons_hd. reflexivity. }
    destruct Hhas as (plan & -> & Hne & Hex).
    destruct (determineEnvs_cases names plan DOTENV_KEY Hne) as [[_ ->]|[Hno _]];
      done.
  - intros -> Hnames Hkey.
    assert (Hplan : _determineEnvs W names [] DOTENV_KEY
                    = (λ name, mkEnv TYPE_ENV_FILE (guessPrivateKeyFilename W name))
                        <$> names).
    { unfold _determineEnvs. cbn [length Nat.leb].
      destruct names as [|name names]; [done|].
      change (0 <? length (name :: names)) with true. cbv iota.
      apply determineEnvsFromDotenvPrivateKey_map. }
    rewrite Hplan.
    destruct (determineEnvs_cases names
                ((λ name, mkEnv TYPE_ENV_FILE (guessPrivateKeyFilename W name))
                   <$> names) DOTENV_KEY) as [[He _]|[_ ->]].
    + by destruct names.
    + rewrite decide_False in He by done.
      apply Exists_exists in He as (env & (name & -> & _)%list_elem_of_fmap & Ht).
      discriminate Ht.
    + rewrite !decide_False by done. reflexivity.
Qed.

End PlanMore.

Lemma private_key_names_plan_witness :
  envs (new_Run (Demo.world []) [] false (js "k?environment=ci") 0
          (Demo.heap_of [(js "PATH", js "/bin");
                         (js "DOTENV_PRIVATE_KEY_CI", js "abc")]))
  = [mkEnv TYPE_ENV_FILE (js ".env")].
Proof.
  apply (private_key_names_plan (Demo.world []) false (js "k?environment=ci") 0
           (Demo.heap_of [(js "PATH", js "/bin");
                          (js "DOTENV_PRIVATE_KEY_CI", js "abc")])).
  vm_compute. discriminate.
Defined.

Lemma plan_has_a_file_witness :
  Exists (λ env, type env = TYPE_ENV_VAULT_FILE)
    (_determineEnvs (Demo.world []) [] [mkEnv TYPE_ENV (js "A=1")]
       (js "k?environment=ci")).
Proof.
  destruct (plan_has_a_file (Demo.world []) [] [mkEnv TYPE_ENV (js "A=1")]
              (js "k?environment=ci")) as (_ & Hhas & _).
  apply Hhas. left. discriminate.
Defined.

Lemma determineEnvs_idempotent_witness :
  _determineEnvs (Demo.world []) []
    (_determineEnvs (Demo.world []) [] [mkEnv TYPE_ENV (js "A=1")] []) []
  = [mkEnv TYPE_ENV_FILE (js ".env"); mkEnv TYPE_ENV (js "A=1")].
Proof.
  destruct (determineEnvs_idempotent (Demo.world []) []
              [mkEnv TYPE_ENV (js "A=1")] []) as [Hsame _].
  rewrite Hsame; [reflexivity|]. left. discriminate.
Defined.

(* ------------------------------------------------------------------------- *)
(** ** The keys of DOTENV_KEY *)

Lemma split_cons_inv (sep : N) (s : jsstring) :
  ∃ w ws, split sep s = w :: ws.
Proof.
  pose proof (split_nonempty sep s). destruct (split sep s) as [|w ws]; [done|eauto].
Qed.

Lemma join_split (sep : N) (s : jsstring) : join sep (split sep s) = s.
Proof.
  induction s as [|c s IH]; simpl; [done|].
  destruct (split_cons_inv sep s) as (w & ws & Hs). rewrite Hs in *.
  case_decide as Hc.
  - subst c. simpl. simpl in IH. by rewrite IH.
  - simpl. simpl in IH. destruct ws; simpl in *; by rewrite <- IH.
Qed.

Lemma split_no_sep_inside (sep : N) (s : jsstring) :
  Forall (λ key, sep ∉ key) (split sep s).
Proof.
  induction s as [|c s IH]; simpl.
  - repeat constructor. apply not_elem_of_nil.
  - destruct (split_cons_inv sep s) as (w & ws & Hs). rewrite Hs in *.
    apply Forall_cons in IH as [Hw Hws]. case_decide as Hc.
    + repeat constructor; [apply not_elem_of_nil|done|done].
    + constructor; [|done]. rewrite not_elem_of_cons. auto.
Qed.

Lemma length_split (sep : N) (s : jsstring) :
  length (split sep s) = S (length (filter (λ c, c = sep) s)).
Proof.
  induction s as [|c s IH]; simpl; [done|].
  destruct (split_cons_inv sep s) as (w & ws & Hs). rewrite Hs in *.
  rewrite filter_cons. case_decide; simpl in *; lia.
Qed.

Lemma split_app_sep (sep : N) (key rest : jsstring) :
  sep ∉ key → split sep (key ++ sep :: rest) = key :: split sep rest.
Proof.
  intros Hkey. induction key as [|c key IH]; simpl.
  - by rewrite decide_True.
  - apply not_elem_of_cons in Hkey as [Hc Hkey].
    rewrite decide_False by done. by rewrite (IH Hkey).
Qed.

Lemma split_join (sep : N) (keys : list jsstring) :
  keys ≠ [] → Forall (λ key, sep ∉ key) keys → split sep (join sep keys) = keys.
Proof.
  intros Hne Hkeys. induction Hkeys as [|key keys Hkey Hkeys IH]; [done|].
  destruct keys as [|key' keys].
  - simpl. apply split_no_sep. apply Forall_forall. intros c Hc ->. done.
  - change (join sep (key :: key' :: keys))
      with (key ++ sep :: join sep (key' :: keys)).
    rewrite split_app_sep by done. by rewrite IH.
Qed.

(** X4: [_dotenvKeys] gives one key or more, one more than there are commas
    in [DOTENV_KEY]; no key holds a comma, and the keys joined by commas are
    [DOTENV_KEY] again.  The other way round, the keys of a secret made by
    joining comma-free keys are those keys. *)
Theorem dotenvKeys_round_trip (r : Run) :
  _dotenvKeys r ≠ [] ∧
  length (_dotenvKeys r) = S (length (filter (λ c, c = 44%N) (DOTENV_KEY r))) ∧
  Forall (λ key, 44%N ∉ key) (_dotenvKeys r) ∧
  join 44%N (_dotenvKeys r) = DOTENV_KEY r ∧
  (∀ keys, keys ≠ [] → Forall (λ key, 44%N ∉ key) keys →
           DOTENV_KEY r = join 44%N keys → _dotenvKeys r = keys).
Proof.
  unfold _dotenvKeys. split_and!.
  - apply split_nonempty.
  - apply length_split.
  - apply split_no_sep_inside.
  - apply join_split.
  - intros keys Hne Hkeys ->. by apply split_join.
Qed.

Lemma dotenvKeys_round_trip_witness :
  _dotenvKeys (new_Run (Demo.world []) [] false (js "a,b ,,c") 0 (Demo.heap_of []))
  = [js "a"; js "b "; []; js "c"].
Proof.
  destruct (dotenvKeys_round_trip
              (new_Run (Demo.world []) [] false (js "a,b ,,c") 0 (Demo.heap_of [])))
    as (_ & _ & _ & _ & Hkeys).
  apply Hkeys; [discriminate| |reflexivity].
  repeat constructor; vm_compute; intros H; repeat (inversion H as [|? ? ? H']; clear H; rename H' into H).
Defined.

(* ------------------------------------------------------------------------- *)
(** ** Trimming *)

Lemma rev_is_reverse {A} (l : list A) : rev l = reverse l.
Proof. unfold reverse. apply rev_alt. Qed.

Lemma trimStart_split (s : jsstring) :
  ∃ a, s = a ++ trimStart s ∧ Forall (λ c, isWhiteSpace c = true) a.
Proof.
  induction s as [|c s (a & Ha & Hws)]; simpl.
  - exists []. done.
  - destruct (isWhiteSpace c) eqn:Hc.
    + exists (c :: a). split; [simpl; congruence|by constructor].
    + exists []. done.
Qed.

Lemma trimStart_head (s : jsstring) (c : N) :
  head (trimStart s) = Some c → isWhiteSpace c = false.
Proof.
  induction s as [|d s IH]; simpl; [done|].
  destruct (isWhiteSpace d) eqn:Hd; [done|]. simpl. congruence.
Qed.

Lemma trimStart_id (s : jsstring) :
  (∀ c, head s = Some c → isWhiteSpace c = false) → trimStart s = s.
Proof. destruct s as [|c s]; simpl; [done|]. intros H. by rewrite (H c). Qed.

Lemma trimEnd_split (s : jsstring) :
  ∃ b, s = trimEnd s ++ b ∧ Forall (λ c, isWhiteSpace c = true) b.
Proof.
  unfold trimEnd. destruct (trimStart_split (rev s)) as (a & Ha & Hws).
  exists (rev a). split.
  - apply (f_equal (@rev N)) in Ha. by rewrite rev_involutive, rev_app_distr in Ha.
  - rewrite rev_is_reverse. by apply Forall_reverse.
Qed.

Lemma trimEnd_last (s : jsstring) (c : N) :
  last (trimEnd s) = Some c → isWhiteSpace c = false.
Proof.
  unfold trimEnd. rewrite rev_is_reverse, last_reverse. apply trimStart_head.
Qed.

Lemma trimEnd_id (s : jsstring) :
  (∀ c, last s = Some c → isWhiteSpace c = false) → trimEnd s = s.
Proof.
  intros H. unfold trimEnd. rewrite trimStart_id; [apply rev_involutive|].
  intros c. rewrite rev_is_reverse, head_reverse. apply H.
Qed.

Lemma trimEnd_head (s : jsstring) (c : N) :
  (∀ d, head s = Some d → isWhiteSpace d = false) →
  head (trimEnd s) = Some c → isWhiteSpace c = false.
Proof.
  intros Hs Hc. destruct (trimEnd_split s) as (b & Hb & _).
  apply Hs. rewrite Hb. destruct (trimEnd s); [done|]. exact Hc.
Qed.

Lemma trim_trimmed (s : jsstring) : trimmed (trim s).
Proof.
  unfold trim. split.
  - intros c. apply trimEnd_head. apply trimStart_head.
  - apply trimEnd_last.
Qed.

Lemma trim_split (s : jsstring) :
  ∃ a b, s = a ++ trim s ++ b ∧
         Forall (λ c, isWhiteSpace c = true) a ∧
         Forall (λ c, isWhiteSpace c = true) b.
Proof.
  destruct (trimStart_split s) as (a & Ha & Hwa).
  destruct (trimEnd_split (trimStart s)) as (b & Hb & Hwb).
  exists a, b. unfold trim. split; [|done]. by rewrite <- Hb.
Qed.

Lemma trim_id (s : jsstring) : trimmed s → trim s = s.
Proof.
  intros [Hh Hl]. unfold trim. rewrite (trimStart_id s Hh). by apply trimEnd_id.
Qed.

Lemma trim_no_sep (sep : N) (s : jsstring) : sep ∉ s → sep ∉ trim s.
Proof.
  intros Hs Hin. destruct (trim_split s) as (a & b & Hab & _).
  apply Hs. rewrite Hab, !elem_of_app. auto.
Qed.

(* ------------------------------------------------------------------------- *)
(** ** The private key of a file and the decryption of a vault entry *)

Section Keys.
Context (W : World).

(** X5: when the sibling module fails and the command-line tool prints a
    key, the private key is what it printed without the white space around
    it: it is the middle part of the output, between two runs of white space,
    and has white space neither first nor last. *)
Theorem cli_private_key_is_trimmed (envFilepath name stdout : jsstring)
    (e : JsError) :
  guessPrivateKeyName W envFilepath = Ok name →
  pro_keypair W envFilepath name = Throw e →
  cli_keypair W name envFilepath = Ok stdout →
  ∃ key a b,
    _determinePrivateKey W envFilepath = Ok (Some key) ∧
    stdout = a ++ key ++ b ∧
    Forall (λ c, isWhiteSpace c = true) a ∧
    Forall (λ c, isWhiteSpace c = true) b ∧
    trimmed key.
Proof.
  intros Hname Hpro Hcli. unfold _determinePrivateKey.
  rewrite Hname, Hpro, Hcli.
  destruct (trim_split stdout) as (a & b & Hab & Ha & Hb).
  exists (trim stdout), a, b. split_and!; try done. apply trim_trimmed.
Qed.

(** X6: the three ways to a private key are tried in order and the first
    that succeeds gives the key: the key of the sibling module; when that
    fails, the trimmed output of the command-line tool; when that fails too,
    the key of the local key store.  A key that comes out comes from one of
    the three in that order.  A failure of the sibling module or of the
    command-line tool never comes out: an error of [_determinePrivateKey] is
    the error of the guess of the key name, or the error of the local key
    store after both other ways failed. *)
Theorem determinePrivateKey_fallbacks (envFilepath : jsstring) :
  (∀ e, _determinePrivateKey W envFilepath = Throw e →
        guessPrivateKeyName W envFilepath = Throw e ∨
        ∃ name,
          guessPrivateKeyName W envFilepath = Ok name ∧
          isOk (pro_keypair W envFilepath name) = false ∧
          isOk (cli_keypair W name envFilepath) = false ∧
          local_keypair W envFilepath name = Throw e) ∧
  (∀ name privateKey,
     guessPrivateKeyName W envFilepath = Ok name →
     pro_keypair W envFilepath name = Ok privateKey →
     _determinePrivateKey W envFilepath = Ok privateKey) ∧
  (∀ name stdout,
     guessPrivateKeyName W envFilepath = Ok name →
     isOk (pro_keypair W envFilepath name) = false →
     cli_keypair W name envFilepath = Ok stdout →
     _determinePrivateKey W envFilepath = Ok (Some (trim stdout))) ∧
  (∀ name,
     guessPrivateKeyName W envFilepath = Ok name →
     isOk (pro_keypair W envFilepath name) = false →
     isOk (cli_keypair W name envFilepath) = false →
     _determinePrivateKey W envFilepath = local_keypair W envFilepath name) ∧
  (∀ privateKey,
     _determinePrivateKey W envFilepath = Ok privateKey →
     ∃ name,
       guessPrivateKeyName W envFilepath = Ok name ∧
       (pro_keypair W envFilepath name = Ok privateKey ∨
        (isOk (pro_keypair W envFilepath name) = false ∧
         ∃ stdout, cli_keypair W name envFilepath = Ok stdout ∧
                   privateKey = Some (trim stdout)) ∨
        (isOk (pro_keypair W envFilepath name) = false ∧
         isOk (cli_keypair W name envFilepath) = false ∧
         local_keypair W envFilepath name = Ok privateKey))).
Proof.
  unfold _determinePrivateKey. split_and!.
  - intros e.
    destruct (guessPrivateKeyName W envFilepath) as [name|e0]; [|intros [= ->]; auto].
    destruct (pro_keypair W envFilepath name) as [k|e1] eqn:Hpro; [done|].
    destruct (cli_keypair W name envFilepath) as [out|e2] eqn:Hcli; [done|].
    intros He. right. exists name. by rewrite Hpro, Hcli.
  - intros name privateKey -> ->. done.
  - intros name stdout -> Hpro ->.
    by destruct (pro_keypair W envFilepath name).
  - intros name ->.
    destruct (pro_keypair W envFilepath name); [done|].
    destruct (cli_keypair W name envFilepath); done.
  - intros privateKey.
    destruct (guessPrivateKeyName W envFilepath) as [name|e0]; [|done].
    intros Hkey. exists name. split; [done|].
    destruct (pro_keypair W envFilepath name) as [k|e1]; [left; exact Hkey|].
    right. destruct (cli_keypair W name envFilepath) as [stdout|e2].
    + left. split; [done|]. exists stdout. split; [done|]. congruence.
    + right. done.
Qed.

(** X7: [_decrypted] succeeds only through the entry of the vault named
    after the environment of the key, upper-cased behind [DOTENV_VAULT_]:
    the entry is there, its ciphertext is not empty, and the plaintext is
    what [decrypt] makes of that ciphertext with the whole key.  An entry
    that is missing or empty gives the error of code
    [NOT_FOUND_DOTENV_ENVIRONMENT], whose message names the entry. *)
Theorem decrypted_by_environment_entry (dotenvKey : jsstring) (parsedVault : Obj) :
  (∀ plaintext,
     _decrypted W dotenvKey parsedVault = Ok plaintext →
     ∃ environment ciphertext,
       parseEnvironmentFromDotenvKey W dotenvKey = Ok environment ∧
       obj_get parsedVault (js "DOTENV_VAULT_" ++ toUpperCase W environment)
       = Some ciphertext ∧
       ciphertext ≠ [] ∧
       decrypt W ciphertext dotenvKey = Ok plaintext) ∧
  (∀ environment,
     parseEnvironmentFromDotenvKey W dotenvKey = Ok environment →
     obj_get parsedVault (js "DOTENV_VAULT_" ++ toUpperCase W environment) = None ∨
     obj_get parsedVault (js "DOTENV_VAULT_" ++ toUpperCase W environment) = Some [] →
     ∃ e,
       _decrypted W dotenvKey parsedVault = Throw e ∧
       code e = Some (js "NOT_FOUND_DOTENV_ENVIRONMENT") ∧
       message e
       = js "NOT_FOUND_DOTENV_ENVIRONMENT: cannot locate environment "
         ++ (js "DOTENV_VAULT_" ++ toUpperCase W environment)
         ++ js " in your .env.vault file").
Proof.
  unfold _decrypted. split.
  - intros plaintext.
    destruct (parseEnvironmentFromDotenvKey W dotenvKey) as [environment|e]; [|done].
    destruct (obj_get parsedVault _) as [[|c ciphertext]|] eqn:Hget; [done| |done].
    intros Hd. exists environment, (c :: ciphertext). done.
  - intros environment -> [Hget|Hget]; rewrite Hget;
      eexists; split_and!; reflexivity.
Qed.

(** X8: white space around the keys of [DOTENV_KEY] does not count: the
    loop over the keys gives the same result on the keys and on the trimmed
    keys, and so on two lists of keys that are the same once trimmed; the
    keys it tries hold no comma and have white space neither first nor last. *)
Theorem rotation_ignores_padding (r : Run) (parsedVault : Obj) :
  (∀ keys,
     decrypt_loop W (map trim keys) parsedVault 0 (map trim keys)
     = decrypt_loop W keys parsedVault 0 keys) ∧
  (∀ keys keys',
     map trim keys = map trim keys' →
     decrypt_loop W keys parsedVault 0 keys
     = decrypt_loop W keys' parsedVault 0 keys') ∧
  Forall (λ key, trimmed key ∧ 44%N ∉ key) (map trim (_dotenvKeys r)).
Proof.
  split_and!.
  - intros keys. rewrite !decrypt_loop_first_success. f_equal.
    rewrite map_map. apply map_ext.
    intros key. apply trim_id, trim_trimmed.
  - intros keys keys' Heq. rewrite !decrypt_loop_first_success. by rewrite Heq.
  - apply Forall_fmap.
    eapply Forall_impl; [apply (split_no_sep_inside 44%N)|].
    intros key Hkey. simpl. split; [apply trim_trimmed|by apply trim_no_sep].
Qed.

End Keys.

Lemma cli_private_key_is_trimmed_witness :
  ∃ key,
    _determinePrivateKey
      (with_cli_keypair (Demo.world []) (λ _ _, Ok (js "  secret ")))
      (js ".env")
    = Ok (Some key) ∧
    trimmed key.
Proof.
  destruct (cli_private_key_is_trimmed
              (with_cli_keypair (Demo.world []) (λ _ _, Ok (js "  secret ")))
              (js ".env") (js "DOTENV_PRIVATE_KEY") (js "  secret ")
              (mkError (Some (js "MODULE_NOT_FOUND")) []))
    as (key & a & b & Hkey & _ & _ & _ & Htrimmed); [reflexivity..|].
  exists key. split; [exact Hkey|exact Htrimmed].
Defined.

Lemma determinePrivateKey_fallbacks_witness :
  _determinePrivateKey (Demo.world []) (js ".env") = Ok None ∧
  _determinePrivateKey
    (with_cli_keypair (Demo.world []) (λ _ _, Ok (js " secret ")))
    (js ".env")
  = Ok (Some (trim (js " secret "))).
Proof.
  split.
  - destruct (determinePrivateKey_fallbacks (Demo.world []) (js ".env"))
      as (_ & _ & _ & Hlocal & _).
    apply (Hlocal (js "DOTENV_PRIVATE_KEY")); reflexivity.
  - destruct (determinePrivateKey_fallbacks
                (with_cli_keypair (Demo.world []) (λ _ _, Ok (js " secret ")))
                (js ".env"))
      as (_ & _ & Hcli & _).
    apply (Hcli (js "DOTENV_PRIVATE_KEY")); reflexivity.
Defined.

Lemma decrypted_by_environment_entry_witness :
  ∃ e,
    _decrypted (Demo.world Demo.vault_files) (js "good?environment=staging")
      (Demo.parse (js "DOTENV_VAULT_PRODUCTION=abc")) = Throw e ∧
    code e = Some (js "NOT_FOUND_DOTENV_ENVIRONMENT").
Proof.
  destruct (decrypted_by_environment_entry (Demo.world Demo.vault_files)
              (js "good?environment=staging")
              (Demo.parse (js "DOTENV_VAULT_PRODUCTION=abc")))
    as [_ Hmissing].
  destruct (Hmissing (js "staging")) as (e & He & Hc & _);
    [reflexivity|left; reflexivity|].
  exists e. done.
Defined.

Lemma rotation_ignores_padding_witness :
  decrypt_loop (Demo.world Demo.vault_files) [js " a"; js "b "]
    (Demo.parse (js "DOTENV_VAULT_CI=abc")) 0 [js " a"; js "b "]
  = decrypt_loop (Demo.world Demo.vault_files) [js "a"; js "b"]
      (Demo.parse (js "DOTENV_VAULT_CI=abc")) 0 [js "a"; js "b"].
Proof.
  destruct (rotation_ignores_padding (Demo.world Demo.vault_files)
              (new_Run (Demo.world Demo.vault_files) [] false [] 0 (Demo.heap_of []))
              (Demo.parse (js "DOTENV_VAULT_CI=abc")))
    as (_ & Hsame & _).
  apply Hsame. reflexivity.
Defined.

(* ------------------------------------------------------------------------- *)
(** ** The outcomes of the vault handler and the errors of a run *)

Section Outcomes.
Context (W : World).

Lemma first_success_throw_last (attempt : jsstring → Res jsstring)
    (keys : list jsstring) (e : JsError) :
  first_success attempt keys = Throw e →
  ∃ key, last keys = Some key ∧ attempt key = Throw e.
Proof.
  induction keys as [|k keys IH]; simpl; [done|].
  destruct (attempt k) as [d|e'] eqn:Hak; [done|].
  destruct keys as [|k' keys]; [intros [= <-]; eauto|].
  intros (key & Hlast & Hkey)%IH. exists key. done.
Qed.

Lemma first_success_some (attempt : jsstring → Res jsstring)
    (keys : list jsstring) :
  keys ≠ [] → first_success attempt keys ≠ Ok None.
Proof.
  induction keys as [|k keys IH]; simpl; [done|]. intros _.
  destruct (attempt k); [done|]. destruct keys; [done|]. by apply IH.
Qed.

(** The five ways [_injectEnvVaultFile] can go. *)
Lemma injectEnvVaultFile_cases (p : jsstring) (r : Run) (h : Heap) :
  (fs_existsSync W (path_resolve W p) = false ∧
   _injectEnvVaultFile W p r h
   = (Throw (MISSING_ENV_VAULT_FILE (path_resolve W p)), (add_readableFilepath p r, h))) ∨
  (fs_existsSync W (path_resolve W p) = true ∧ DOTENV_KEY r = [] ∧
   _injectEnvVaultFile W p r h
   = (Throw (MISSING_DOTENV_KEY []), (add_readableFilepath p r, h))) ∨
  (fs_existsSync W (path_resolve W p) = true ∧ DOTENV_KEY r ≠ [] ∧
   ∃ e, fs_readFileSync W (path_resolve W p) ENCODING = Throw e ∧
        _injectEnvVaultFile W p r h = (Throw e, (add_readableFilepath p r, h))) ∨
  (fs_existsSync W (path_resolve W p) = true ∧ DOTENV_KEY r ≠ [] ∧
   ∃ src key e,
     fs_readFileSync W (path_resolve W p) ENCODING = Ok src ∧
     last (_dotenvKeys r) = Some key ∧
     _decrypted W (trim key) (dotenv_parse W src) = Throw e ∧
     _injectEnvVaultFile W p r h = (Throw e, (add_readableFilepath p r, h))) ∨
  (fs_existsSync W (path_resolve W p) = true ∧ DOTENV_KEY r ≠ [] ∧
   ∃ src plaintext,
     fs_readFileSync W (path_resolve W p) ENCODING = Ok src ∧
     _injectEnvVaultFile W p r h
     = vault_parse_and_inject W (Some plaintext)
         (new_row TYPE_ENV_VAULT_FILE None (Some p)) (add_readableFilepath p r) h).
Proof.
  destruct (fs_existsSync W (path_resolve W p)) eqn:Hex.
  2:{ left. split; [done|]. by apply injectEnvVaultFile_missing. }
  right. destruct (decide (DOTENV_KEY r = [])) as [Hk|Hk].
  { left. split_and!; [done..|]. by apply injectEnvVaultFile_blank. }
  right. rewrite injectEnvVaultFile_checked by done.
  unfold vault_decrypt_and_inject, _parsedVault.
  destruct (fs_readFileSync W (path_resolve W p) ENCODING) as [src|e] eqn:Hread.
  2:{ left. split_and!; [done..|]. eauto. }
  right. rewrite decrypt_loop_first_success.
  change (_dotenvKeys (add_readableFilepath p r)) with (_dotenvKeys r).
  destruct (first_success _ _) as [[plaintext|]|e] eqn:Hrot.
  - right. split_and!; [done..|]. eauto.
  - apply first_success_some in Hrot; [done|].
    intros Hnil%fmap_nil_inv. by apply split_nonempty in Hnil.
  - left. split_and!; [done..|].
    apply first_success_throw_last in Hrot as (key' & Hlast & Hatt).
    rewrite fmap_last in Hlast.
    destruct (last (_dotenvKeys r)) as [key|] eqn:Hk'; simplify_eq/=.
    exists src, key, e. done.
Qed.

Lemma run_loop_throw (plan : list Env) (r : Run) (h : Heap) (e : JsError) :
  (run_loop W plan r h).1 = Throw e →
  ∃ env r1 h1,
    env ∈ plan ∧ type env = TYPE_ENV_VAULT_FILE ∧ DOTENV_KEY r1 = DOTENV_KEY r ∧
    (_injectEnvVaultFile W (value env) r1 h1).1 = Throw e.
Proof.
  revert r h. induction plan as [|env plan IH]; intros r h; simpl; [done|].
  destruct (decide (type env = TYPE_ENV_VAULT_FILE)) as [Hv|Hv].
  - pose proof (run_env_vault W env r h Hv) as Henv.
    pose proof (run_env_settings W env r h) as (Hkey & _).
    destruct (run_env W env r h) as [[[]|e'] [r' h']] eqn:Hrun; simpl in *.
    + intros (env' & r1 & h1 & Hin & Ht & Hk & He)%IH.
      exists env', r1, h1. rewrite elem_of_cons. split_and!; auto. congruence.
    + intros [= ->]. exists env, r, h. rewrite elem_of_cons, <- Henv.
      split_and!; auto.
  - pose proof (run_env_returns W env r h Hv) as Hret.
    pose proof (run_env_settings W env r h) as (Hkey & _).
    destruct (run_env W env r h) as [[[]|e'] [r' h']]; simpl in *; [|done].
    intros (env' & r1 & h1 & Hin & Ht & Hk & He)%IH.
    exists env', r1, h1. rewrite elem_of_cons. split_and!; auto. congruence.
Qed.

(** X9: [run] throws only at a vault source of the plan, and the error is
    one of four: [MISSING_ENV_VAULT_FILE] for a vault file that does not
    exist, [MISSING_DOTENV_KEY] for an empty [DOTENV_KEY], the error of
    reading the vault file, or the error of [_decrypted] on the last key of
    [DOTENV_KEY].  A failure of parseDecryptEvalExpand or of inject is never
    thrown. *)
Theorem run_throws_at_a_vault (r : Run) (h : Heap) (e : JsError) :
  (run W r h).1 = Throw e →
  ∃ env,
    env ∈ envs r ∧ type env = TYPE_ENV_VAULT_FILE ∧
    ((fs_existsSync W (path_resolve W (value env)) = false ∧
      e = MISSING_ENV_VAULT_FILE (path_resolve W (value env))) ∨
     (fs_existsSync W (path_resolve W (value env)) = true ∧
      DOTENV_KEY r = [] ∧ e = MISSING_DOTENV_KEY []) ∨
     (fs_existsSync W (path_resolve W (value env)) = true ∧
      fs_readFileSync W (path_resolve W (value env)) ENCODING = Throw e) ∨
     (∃ src key,
        fs_readFileSync W (path_resolve W (value env)) ENCODING = Ok src ∧
        last (_dotenvKeys r) = Some key ∧
        _decrypted W (trim key) (dotenv_parse W src) = Throw e)).
Proof.
  unfold run. intros Hrun.
  assert (Hloop : (run_loop W (envs r) r h).1 = Throw e).
  { destruct (run_loop W (envs r) r h) as [[[]|e'] [r' h']]; simpl in *; congruence. }
  apply run_loop_throw in Hloop as (env & r1 & h1 & Hin & Ht & Hk & He).
  exists env. split_and!; [done..|].
  assert (Hkeys : _dotenvKeys r1 = _dotenvKeys r) by (unfold _dotenvKeys; congruence).
  destruct (injectEnvVaultFile_cases (value env) r1 h1)
    as [[Hex Heq]|[(Hex & Hb & Heq)|[(Hex & Hb & e' & Hread & Heq)
       |[(Hex & Hb & src & key & e' & Hread & Hlast & Hatt & Heq)
        |(Hex & Hb & src & plaintext & Hread & Heq)]]]];
    rewrite Heq in He; simpl in He.
  - left. split; congruence.
  - right. left. split_and!; congruence.
  - right. right. left. split; congruence.
  - right. right. right. exists src, key. rewrite <- Hkeys. split_and!; congruence.
  - destruct (vault_parse_and_inject_row W (Some plaintext)
                (new_row TYPE_ENV_VAULT_FILE None (Some (value env)))
                (add_readableFilepath (value env) r1) h1) as [Hok _].
    congruence.
Qed.

End Outcomes.

Lemma run_throws_at_a_vault_witness :
  ∃ env,
    env ∈ Demo.vault_plan ∧ type env = TYPE_ENV_VAULT_FILE.
Proof.
  destruct (run_throws_at_a_vault (Demo.world Demo.vault_files)
              (new_Run (Demo.world Demo.vault_files) Demo.vault_plan false
                 Demo.bad_keys 0 (Demo.heap_of []))
              (Demo.heap_of [])
              (mkError (Some (js "DECRYPTION_FAILED"))
                       (js "wrong key worse?environment=production")))
    as (env & Hin & Ht & _).
  - vm_compute. reflexivity.
  - exists env. split; [exact Hin|exact Ht].
Defined.

(* ------------------------------------------------------------------------- *)
(** ** The records of a run *)

Section Records.
Context (W : World).

Lemma handled_vault : TYPE_ENV_VAULT_FILE ∈ HANDLED_TYPES.
Proof. apply list_elem_of_here. Qed.

Lemma handled_file : TYPE_ENV_FILE ∈ HANDLED_TYPES.
Proof. apply list_elem_of_further, list_elem_of_here. Qed.

Lemma handled_inline : TYPE_ENV ∈ HANDLED_TYPES.
Proof. do 2 apply list_elem_of_further. apply list_elem_of_here. Qed.

Lemma not_handled (t : jsstring) :
  t ≠ TYPE_ENV_VAULT_FILE → t ≠ TYPE_ENV_FILE → t ≠ TYPE_ENV → t ∉ HANDLED_TYPES.
Proof.
  intros H1 H2 H3 Hin. unfold HANDLED_TYPES in Hin.
  rewrite !elem_of_cons, elem_of_nil in Hin. tauto.
Qed.

(** The records a handler leaves: one for a source it handles and returns
    from, none otherwise. *)
Lemma run_env_rows (env : Env) (r : Run) (h : Heap) :
  match (run_env W env r h).1 with
  | Ok _ =>
      if decide (type env ∈ HANDLED_TYPES)
      then ∃ row,
             processedEnvs (run_env W env r h).2.1 = processedEnvs r ++ [row] ∧
             row_type row = type env ∧ row_source row = Some (value env)
      else processedEnvs (run_env W env r h).2.1 = processedEnvs r
  | Throw _ => processedEnvs (run_env W env r h).2.1 = processedEnvs r
  end.
Proof.
  destruct (decide (type env = TYPE_ENV_VAULT_FILE)) as [Hv|Hv];
    [|destruct (decide (type env = TYPE_ENV_FILE)) as [Hf|Hf];
      [|destruct (decide (type env = TYPE_ENV)) as [Hi|Hi]]].
  - rewrite run_env_vault by done.
    destruct (injectEnvVaultFile_cases W (value env) r h)
      as [[_ ->]|[(_ & _ & ->)|[(_ & _ & e' & _ & ->)
         |[(_ & _ & src & key & e' & _ & _ & _ & ->)
          |(_ & _ & src & plaintext & _ & ->)]]]]; try reflexivity.
    destruct (vault_parse_and_inject_row W (Some plaintext)
                (new_row TYPE_ENV_VAULT_FILE None (Some (value env)))
                (add_readableFilepath (value env) r) h)
      as (-> & row & Hrows & Ht & Hfp).
    rewrite decide_True by (rewrite Hv; apply handled_vault).
    exists row. split_and!; [done|by rewrite Hv|].
    unfold row_source. rewrite Ht. cbn [row_type new_row].
    rewrite decide_False by discriminate. exact Hfp.
  - rewrite run_env_file, injectEnvFile_returns by done.
    rewrite decide_True by (rewrite Hf; apply handled_file).
    destruct (injectEnvFile_row W (value env) r h) as (row & Hrows & Ht & Hfp & _).
    exists row. split_and!; [done|by rewrite Hf|].
    unfold row_source. rewrite Ht.
    rewrite decide_False by discriminate. exact Hfp.
  - rewrite run_env_inline, injectEnv_returns by done.
    rewrite decide_True by (rewrite Hi; apply handled_inline).
    destruct (injectEnv_row W (value env) r h) as (row & Hrows & Ht & Hs & _).
    exists row. split_and!; [done|by rewrite Hi|].
    unfold row_source. rewrite Ht.
    rewrite decide_True by done. exact Hs.
  - unfold run_env. rewrite !decide_False by done. simpl.
    rewrite decide_False by by apply not_handled. done.
Qed.

Lemma run_loop_rows (plan : list Env) (r : Run) (h : Heap) :
  ∃ handled,
    (λ row, (row_type row, row_source row)) <$> processedEnvs (run_loop W plan r h).2.1
    = ((λ row, (row_type row, row_source row)) <$> processedEnvs r)
      ++ ((λ env, (type env, Some (value env))) <$> handled) ∧
    handled `prefix_of` filter (λ env, type env ∈ HANDLED_TYPES) plan ∧
    ((run_loop W plan r h).1 = Ok tt →
     handled = filter (λ env, type env ∈ HANDLED_TYPES) plan).
Proof.
  revert r h. induction plan as [|env plan IH]; intros r h; simpl.
  - exists []. rewrite app_nil_r. done.
  - pose proof (run_env_rows env r h) as Henv. rewrite filter_cons.
    destruct (run_env W env r h) as [[[]|e] [r' h']]; simpl in *.
    + destruct (IH r' h') as (handled & Hrows & Hpre & Hall).
      destruct (decide (type env ∈ HANDLED_TYPES)).
      * destruct Henv as (row & Hr' & Ht & Hs).
        exists (env :: handled). split_and!.
        -- rewrite Hrows, Hr', fmap_app, <- app_assoc. simpl. by rewrite Ht, Hs.
        -- by apply prefix_cons.
        -- intros Hok. by rewrite Hall.
      * exists handled. by rewrite Hrows, Henv.
    + exists []. rewrite app_nil_r, Henv. split_and!; [done|apply prefix_nil|done].
Qed.

(** X10: the records of a run follow the plan.  A run that completes has
    one record for each source of the plan whose type is one of the three it
    handles, in the order of the plan, with the type of the source and with
    its value as [string] (Inline) or [filepath] (File, Vault); a source of
    another type leaves no record.  A run that throws has such records for
    the sources up to the one that threw. *)
Theorem records_follow_plan (callerEnvs : list Env) (overload : bool)
    (DOTENV_KEY : jsstring) (processEnv : loc) (h : Heap) :
  let r := new_Run W callerEnvs overload DOTENV_KEY processEnv h in
  (∀ report,
     (run W r h).1 = Ok report →
     (λ row, (row_type row, row_source row)) <$> rep_processedEnvs report
     = (λ env, (type env, Some (value env)))
         <$> filter (λ env, type env ∈ HANDLED_TYPES) (envs r)) ∧
  ∃ handled,
    (λ row, (row_type row, row_source row)) <$> processedEnvs (run W r h).2.1
    = (λ env, (type env, Some (value env))) <$> handled ∧
    handled `prefix_of` filter (λ env, type env ∈ HANDLED_TYPES) (envs r).
Proof.
  intros r. unfold run.
  destruct (run_loop_rows (envs r) r h) as (handled & Hrows & Hpre & Hall).
  destruct (run_loop W (envs r) r h) as [[[]|e] [r' h']]; simpl in *.
  - split.
    + intros report [= <-]. simpl. rewrite Hrows. by rewrite Hall.
    + exists handled. done.
  - split; [done|]. exists handled. done.
Qed.

End Records.

Lemma records_follow_plan_witness :
  ∃ report,
    (run (Demo.world Demo.vault_files)
         (new_Run (Demo.world Demo.vault_files)
            [mkEnv (js "json") (js "{}"); mkEnv TYPE_ENV (js "A=1")]
            false [] 0 (Demo.heap_of []))
         (Demo.heap_of [])).1 = Ok report ∧
    (λ row, (row_type row, row_source row)) <$> rep_processedEnvs report
    = [(TYPE_ENV_FILE, Some (js ".env")); (TYPE_ENV, Some (js "A=1"))].
Proof.
  eexists. split; [vm_compute; reflexivity|].
  destruct (records_follow_plan (Demo.world Demo.vault_files)
              [mkEnv (js "json") (js "{}"); mkEnv TYPE_ENV (js "A=1")]
              false [] 0 (Demo.heap_of [])) as [Hdone _].
  rewrite (Hdone _ ltac:(vm_compute; reflexivity)). vm_compute. reflexivity.
Defined.

(* ------------------------------------------------------------------------- *)
(** ** What every handler keeps *)

Lemma row_wf_failed (row : Row) (e : JsError) :
  row_injected row = None → row_preExisted row = None →
  (is_Some (row_parsed row) ↔ is_Some (row_warnings row)) →
  row_wf (row_set_error row e).
Proof.
  intros Hi Hp Hpw. unfold row_wf. simpl. rewrite Hi, Hp. split_and!.
  - done.
  - done.
  - by intros []%is_Some_None.
  - split; [done|eauto].
Qed.

Lemma row_wf_injected (t : jsstring) (s f : option jsstring) (parsed : Obj)
    (warnings : list JsError) (i p : Obj) :
  row_wf (row_set_injected (row_set_parsed (new_row t s f) parsed warnings) i p).
Proof.
  unfold row_wf. simpl. split_and!; try done; try (split; eauto).
Qed.

Lemma subseteq_set_add (x : jsstring) (s : list jsstring) : s ⊆ set_add x s.
Proof. intros y Hy. apply elem_of_set_add. auto. Qed.

Lemma subseteq_foldl_set_add (u keys : list jsstring) :
  u ⊆ foldl (λ s key, set_add key s) u keys.
Proof. intros y Hy. apply foldl_set_add_elem. auto. Qed.

Lemma parsed_inline_app (rows : list Row) (row : Row) (s : jsstring) :
  parsed_inline (rows ++ [row]) s ↔
  parsed_inline rows s ∨
  (row_type row = TYPE_ENV ∧ row_string row = Some s ∧ is_Some (row_parsed row)).
Proof.
  unfold parsed_inline. split.
  - intros (row' & [Hin| ->%list_elem_of_singleton]%elem_of_app & H); eauto.
  - intros [(row' & Hin & H)|H].
    + exists row'. rewrite elem_of_app. auto.
    + exists row. rewrite elem_of_app, list_elem_of_singleton. auto.
Qed.

Lemma track_readableStrings (r : Run) (keys : list jsstring) :
  readableStrings (foldl add_uniqueInjectedKey r keys) = readableStrings r.
Proof. revert r. induction keys as [|k keys IH]; intros r; simpl; [done|by rewrite IH]. Qed.

Lemma track_envs (r : Run) (keys : list jsstring) :
  envs (foldl add_uniqueInjectedKey r keys) = envs r.
Proof. revert r. induction keys as [|k keys IH]; intros r; simpl; [done|by rewrite IH]. Qed.

Hint Rewrite track_readableStrings track_envs : run_fields.

Section Invariants.
Context (W : World).

(** Unfolds the handler of [env] into its cases. *)
Ltac handler_cases :=
  unfold run_env, _injectEnvVaultFile, vault_decrypt_and_inject,
    vault_parse_and_inject, _injectEnvFile, _injectEnv, inject_and_track, _inject;
  repeat case_match; simplify_eq/=; autorewrite with run_fields; simpl.

Lemma run_env_wf (env : Env) (r : Run) (h : Heap) :
  Forall row_wf (processedEnvs r) →
  Forall row_wf (processedEnvs (run_env W env r h).2.1).
Proof.
  intros Hwf. handler_cases; try done;
    (apply Forall_app; split; [done|]; apply Forall_singleton);
    first [ apply row_wf_injected
          | apply row_wf_failed; simpl; try done; split; intros [? ?]; eauto; done ].
Qed.

Lemma run_loop_wf (plan : list Env) (r : Run) (h : Heap) :
  Forall row_wf (processedEnvs r) →
  Forall row_wf (processedEnvs (run_loop W plan r h).2.1).
Proof.
  revert r h. induction plan as [|env plan IH]; intros r h Hwf; simpl; [done|].
  pose proof (run_env_wf env r h Hwf) as Hwf'.
  destruct (run_env W env r h) as [[[]|e] [r' h']]; simpl in *; [|done].
  by apply IH.
Qed.

(** X11: in every record of a run, whether the run completes or throws,
    [parsed] and [warnings] are set together, [injected] and [preExisted]
    are set together and only on a record that has [parsed], and [error] is
    set exactly when [injected] is not. *)
Theorem records_are_well_formed (callerEnvs : list Env) (overload : bool)
    (DOTENV_KEY : jsstring) (processEnv : loc) (h : Heap) :
  Forall row_wf
    (processedEnvs
       (run W (new_Run W callerEnvs overload DOTENV_KEY processEnv h) h).2.1) ∧
  ∀ report,
    (run W (new_Run W callerEnvs overload DOTENV_KEY processEnv h) h).1 = Ok report →
    Forall row_wf (rep_processedEnvs report).
Proof.
  unfold run. set (r := new_Run W callerEnvs overload DOTENV_KEY processEnv h).
  pose proof (run_loop_wf (envs r) r h (Forall_nil_2 _)) as Hwf.
  destruct (run_loop W (envs r) r h) as [[[]|e] [r' h']]; simpl in *.
  - split; [done|]. by intros report [= <-].
  - split; [done|]. done.
Qed.

Lemma run_env_strings (env : Env) (r : Run) (h : Heap) :
  (∀ s, s ∈ readableStrings r ↔ parsed_inline (processedEnvs r) s) →
  ∀ s, s ∈ readableStrings (run_env W env r h).2.1
       ↔ parsed_inline (processedEnvs (run_env W env r h).2.1) s.
Proof.
  intros Hinv s. specialize (Hinv s). handler_cases; try done;
    rewrite parsed_inline_app; simpl; rewrite ?elem_of_set_add, Hinv;
    (split; [intros; intuition (subst; eauto)|]);
    intros [?|(Ht & Hs & Hp)]; auto;
    try discriminate Ht; try (by apply is_Some_None in Hp);
    left; congruence.
Qed.

Lemma run_loop_strings (plan : list Env) (r : Run) (h : Heap) :
  (∀ s, s ∈ readableStrings r ↔ parsed_inline (processedEnvs r) s) →
  ∀ s, s ∈ readableStrings (run_loop W plan r h).2.1
       ↔ parsed_inline (processedEnvs (run_loop W plan r h).2.1) s.
Proof.
  revert r h. induction plan as [|env plan IH]; intros r h Hinv; simpl; [done|].
  pose proof (run_env_strings env r h Hinv) as Hinv'.
  destruct (run_env W env r h) as [[[]|e] [r' h']]; simpl in *; [|done].
  by apply IH.
Qed.

(** X12: in the report of a run that completes, a string is in
    [readableStrings] exactly when it is the [string] of an Inline record
    that has [parsed]: an Inline source whose parsing failed is not listed. *)
Theorem readable_strings_were_parsed (callerEnvs : list Env) (overload : bool)
    (DOTENV_KEY : jsstring) (processEnv : loc) (h : Heap) (report : Report) :
  (run W (new_Run W callerEnvs overload DOTENV_KEY processEnv h) h).1 = Ok report →
  ∀ s, s ∈ rep_readableStrings report
       ↔ parsed_inline (rep_processedEnvs report) s.
Proof.
  unfold run. set (r := new_Run W callerEnvs overload DOTENV_KEY processEnv h).
  pose proof (run_loop_strings (envs r) r h) as Hinv.
  destruct (run_loop W (envs r) r h) as [[[]|e] [r' h']]; simpl in *; [|done].
  intros [= <-]. apply Hinv. intros s. simpl. unfold parsed_inline. split.
  - intros []%elem_of_nil.
  - intros (row & []%elem_of_nil & _).
Qed.

Lemma run_env_grows (env : Env) (r : Run) (h : Heap) :
  processedEnvs r `prefix_of` processedEnvs (run_env W env r h).2.1 ∧
  readableStrings r ⊆ readableStrings (run_env W env r h).2.1 ∧
  readableFilepaths r ⊆ readableFilepaths (run_env W env r h).2.1 ∧
  uniqueInjectedKeys r ⊆ uniqueInjectedKeys (run_env W env r h).2.1 ∧
  envs (run_env W env r h).2.1 = envs r.
Proof.
  handler_cases;
    split_and!;
    auto using prefix_app_r, subseteq_set_add, subseteq_foldl_set_add;
    try done; try (by eexists).
Qed.

(** X13: a handler only adds.  Whatever the state of the [Run] and the
    plan run from it, and whether the loop completes or throws, the records
    there before are the first records after, unchanged; the three sets
    keep their members; the plan is the same. *)
Theorem run_only_adds (plan : list Env) (r : Run) (h : Heap) :
  processedEnvs r `prefix_of` processedEnvs (run_loop W plan r h).2.1 ∧
  readableStrings r ⊆ readableStrings (run_loop W plan r h).2.1 ∧
  readableFilepaths r ⊆ readableFilepaths (run_loop W plan r h).2.1 ∧
  uniqueInjectedKeys r ⊆ uniqueInjectedKeys (run_loop W plan r h).2.1 ∧
  envs (run_loop W plan r h).2.1 = envs r.
Proof.
  revert r h. induction plan as [|env plan IH]; intros r h; simpl; [done|].
  pose proof (run_env_grows env r h) as (H1 & H2 & H3 & H4 & H5).
  destruct (run_env W env r h) as [[[]|e] [r' h']]; simpl in *; [|done].
  destruct (IH r' h') as (H1' & H2' & H3' & H4' & H5').
  split_and!; first [etrans; eassumption|congruence].
Qed.

End Invariants.

Lemma records_are_well_formed_witness :
  Forall row_wf
    (processedEnvs
       (run (Demo.world Demo.vault_files)
            (new_Run (Demo.world Demo.vault_files)
               [mkEnv TYPE_ENV_FILE (js ".env.ci")] false [] 0 (Demo.heap_of []))
            (Demo.heap_of [])).2.1).
Proof.
  apply (records_are_well_formed (Demo.world Demo.vault_files)
           [mkEnv TYPE_ENV_FILE (js ".env.ci")] false [] 0 (Demo.heap_of [])).
Defined.

Lemma readable_strings_were_parsed_witness :
  ∃ report,
    (run (Demo.world Demo.vault_files)
         (new_Run (Demo.world Demo.vault_files) [mkEnv TYPE_ENV (js "A=1")]
            false [] 0 (Demo.heap_of []))
         (Demo.heap_of [])).1 = Ok report ∧
    rep_readableStrings report = [js "A=1"] ∧
    (js "A=1" ∈ rep_readableStrings report
     ↔ parsed_inline (rep_processedEnvs report) (js "A=1")).
Proof.
  eexists. split; [vm_compute; reflexivity|]. split; [reflexivity|].
  apply (readable_strings_were_parsed (Demo.world Demo.vault_files)
           [mkEnv TYPE_ENV (js "A=1")] false [] 0 (Demo.heap_of [])).
  vm_compute. reflexivity.
Defined.

(* ------------------------------------------------------------------------- *)
(** ** ENOENT after the file was read *)

(** X14: the handler of a File source turns every error of code [ENOENT]
    thrown in its [try] into [MISSING_ENV_FILE], not only one of reading the
    file.  When the file was read and the search for its private key, or
    parseDecryptEvalExpand, throws an error of code [ENOENT], the record
    says that the file is missing while its path is in
    [readableFilepaths]. *)
Theorem enoent_after_read_is_missing_file (W : World) (p : jsstring) (r : Run)
    (h : Heap) (encoding src : jsstring) (e : JsError) :
  detectEncoding W (path_resolve W p) = Ok encoding →
  fs_readFileSync W (path_resolve W p) encoding = Ok src →
  code e = Some (js "ENOENT") →
  (_determinePrivateKey W p = Throw e ∨
   ∃ privateKey h',
     _determinePrivateKey W p = Ok privateKey ∧
     parseDecryptEvalExpand W h (Some src) privateKey (processEnv r)
     = (h', Throw e)) →
  ∃ row,
    processedEnvs (_injectEnvFile W p r h).2.1 = processedEnvs r ++ [row] ∧
    row_error row = Some (MISSING_ENV_FILE p (path_resolve W p)) ∧
    p ∈ readableFilepaths (_injectEnvFile W p r h).2.1.
Proof.
  intros Hd Hread Hcode Hthrow. unfold _injectEnvFile. rewrite Hd, Hread.
  destruct Hthrow as [Hkey|(privateKey & h' & Hkey & Hpdee)]; rewrite Hkey.
  - simpl. rewrite decide_True by done. eexists. split_and!; [reflexivity..|].
    simpl. apply elem_of_set_add. auto.
  - change (processEnv (add_readableFilepath p r)) with (processEnv r).
    rewrite Hpdee. simpl. rewrite decide_True by done.
    eexists. split_and!; [reflexivity..|].
    simpl. apply elem_of_set_add. auto.
Qed.

Lemma enoent_after_read_is_missing_file_witness :
  ∃ row,
    processedEnvs
      (_injectEnvFile
         (with_local_keypair (Demo.world Demo.vault_files) (λ _ _, Throw Demo.ENOENT))
         (js ".env")
         (new_Run (Demo.world Demo.vault_files) [] false [] 0 (Demo.heap_of []))
         (Demo.heap_of [])).2.1 = [row] ∧
    row_error row = Some (MISSING_ENV_FILE (js ".env") (js "/app/.env")).
Proof.
  destruct (enoent_after_read_is_missing_file
              (with_local_keypair (Demo.world Demo.vault_files)
                 (λ _ _, Throw Demo.ENOENT))
              (js ".env")
              (new_Run (Demo.world Demo.vault_files) [] false [] 0 (Demo.heap_of []))
              (Demo.heap_of []) ENCODING (js "HELLO=world") Demo.ENOENT)
    as (row & Hrows & Herr & _).
  - reflexivity.
  - reflexivity.
  - reflexivity.
  - left. reflexivity.
  - exists row. split; [exact Hrows|exact Herr].
Defined.

(* ------------------------------------------------------------------------- *)
(** ** truncate, for any count *)

Lemma slice_from_0_any (s : jsstring) (n : Z) :
  slice s 0 n
  = take (Z.to_nat (if (n <? 0)%Z then Z.of_nat (length s) + n else n)%Z) s.
Proof.
  unfold slice, slice_index.
  destruct (Z.ltb_spec 0 0) as [?|_]; [lia|].
  rewrite (Z.min_l 0) by lia. simpl. rewrite drop_0, Z.sub_0_r.
  destruct (Z.ltb_spec n 0) as [Hn|Hn].
  - f_equal. lia.
  - destruct (Z.le_gt_cases n (Z.of_nat (length s))).
    + by rewrite Z.min_l.
    + rewrite Z.min_r by lia. rewrite Nat2Z.id.
      rewrite !take_ge; [done|lia..].
Qed.

(** X15: for every integer count, negative ones included, [truncate] gives
    a part of [s] from its start followed by the ellipsis: the first [n]
    code units for [n ≥ 0] (all of [s] when it is shorter), and [s] without
    its last [-n] code units for [n < 0] (nothing when it is that short).
    The result is never empty, ends with the ellipsis and is at most one
    code unit longer than [s]. *)
Theorem truncate_any_count (s : jsstring) (n : Z) :
  truncate s (Some n)
  = take (Z.to_nat (if (n <? 0)%Z then Z.of_nat (length s) + n else n)%Z) s
    ++ ELLIPSIS ∧
  last (truncate s (Some n)) = Some 8230%N ∧
  1 ≤ length (truncate s (Some n)) ≤ S (length s) ∧
  ((n < 0)%Z →
   truncate s (Some n) = take (length s - Z.to_nat (- n)) s ++ ELLIPSIS).
Proof.
  assert (Heq : truncate s (Some n)
                = take (Z.to_nat (if (n <? 0)%Z then Z.of_nat (length s) + n
                                  else n)%Z) s ++ ELLIPSIS).
  { unfold truncate. simpl. by rewrite slice_from_0_any. }
  split_and!.
  - exact Heq.
  - rewrite Heq. apply last_snoc.
  - rewrite Heq, length_app, length_take. simpl. lia.
  - rewrite Heq, length_app, length_take. simpl. lia.
  - intros Hn. rewrite Heq. destruct (Z.ltb_spec n 0) as [_|?]; [|lia].
    do 2 f_equal. lia.
Qed.

(** X16: truncating twice with the same count [n ≥ 0] is truncating once
    when [s] has [n] code units or more; a shorter [s] gets a second
    ellipsis. *)
Theorem truncate_twice (s : jsstring) (n : Z) :
  (0 ≤ n)%Z →
  (Z.to_nat n ≤ length s →
   truncate (truncate s (Some n)) (Some n) = truncate s (Some n)) ∧
  (length s < Z.to_nat n →
   truncate (truncate s (Some n)) (Some n) = s ++ ELLIPSIS ++ ELLIPSIS).
Proof.
  intros Hn.
  assert (Heq : ∀ t, truncate t (Some n) = take (Z.to_nat n) t ++ ELLIPSIS).
  { intros t. unfold truncate. simpl. rewrite slice_from_0_any.
    destruct (Z.ltb_spec n 0); [lia|done]. }
  split.
  - intros Hlen. rewrite !Heq. f_equal.
    rewrite take_app_le by (rewrite length_take; lia).
    rewrite take_take. f_equal. lia.
  - intros Hlen. rewrite !Heq.
    rewrite (take_ge s) by lia.
    rewrite take_ge by (rewrite length_app; simpl; lia).
    by rewrite <- app_assoc.
Qed.

Lemma truncate_any_count_witness :
  truncate (js "secret-key") (Some (-4)%Z) = js "secret" ++ ELLIPSIS.
Proof.
  destruct (truncate_any_count (js "secret-key") (-4)) as (_ & _ & _ & Hneg).
  apply Hneg. lia.
Defined.

Lemma truncate_twice_witness :
  truncate (truncate (js "hi") (Some 3%Z)) (Some 3%Z) = js "hi" ++ ELLIPSIS ++ ELLIPSIS.
Proof.
  destruct (truncate_twice (js "hi") 3 ltac:(lia)) as [_ Hshort].
  apply Hshort. simpl. lia.
Defined.

(* ------------------------------------------------------------------------- *)
(** ** More on the state a run leaves *)

Lemma startsWith_prefix (s p : jsstring) :
  startsWith s p = true ↔ ∃ rest, s = p ++ rest.
Proof.
  revert s. induction p as [|c p IH]; intros s.
  - destruct s; simpl; (split; [intros _; by eexists|done]).
  - destruct s as [|d s]; simpl.
    + split; [done|]. intros (rest & Hrest). discriminate Hrest.
    + case_decide as Hcd.
      * subst d. rewrite IH. split; intros (rest & Hrest); exists rest; congruence.
      * split; [done|]. intros (rest & Hrest). congruence.
Qed.

Section State.
Context (W : World).

Ltac handler_cases :=
  unfold run_env, _injectEnvVaultFile, vault_decrypt_and_inject,
    vault_parse_and_inject, _injectEnvFile, _injectEnv, inject_and_track, _inject;
  repeat case_match; simplify_eq/=; autorewrite with run_fields; simpl.

(** X17: the names that a new [Run] keeps for the plan are the keys of
    [process.env] that are [DOTENV_PRIVATE_KEY] followed by anything, the
    empty string included. *)
Theorem dotenvPrivateKeyNames_are_prefixed (callerEnvs : list Env)
    (overload : bool) (DOTENV_KEY : jsstring) (processEnv : loc) (h : Heap)
    (name : jsstring) :
  name ∈ dotenvPrivateKeyNames
           (new_Run W callerEnvs overload DOTENV_KEY processEnv h)
  ↔ name ∈ obj_keys (h !!! processEnv) ∧
    ∃ rest, name = js "DOTENV_PRIVATE_KEY" ++ rest.
Proof.
  unfold new_Run. cbn [dotenvPrivateKeyNames].
  rewrite <- startsWith_prefix, !list_elem_of_In.
  apply (filter_In (λ key, startsWith key (js "DOTENV_PRIVATE_KEY"))).
Qed.

Lemma run_env_heap (env : Env) (r : Run) (h : Heap) :
  (∀ h src privateKey l, (parseDecryptEvalExpand W h src privateKey l).1 = h) →
  (∀ h target parsed overwrite ambient,
     (inject W h target parsed overwrite ambient).1 = h) →
  (run_env W env r h).2.2 = h.
Proof.
  intros Hpdee Hinj. handler_cases;
    repeat match goal with
           | H : parseDecryptEvalExpand W ?h0 ?a ?b ?c = (?g, _) |- _ =>
               let E := fresh in
               pose proof (Hpdee h0 a b c) as E; rewrite H in E; simpl in E;
               clear H; subst
           | H : inject W ?h0 ?a ?b ?c ?d = (?g, _) |- _ =>
               let E := fresh in
               pose proof (Hinj h0 a b c d) as E; rewrite H in E; simpl in E;
               clear H; subst
           end; done.
Qed.

(** X18: [run] writes to [process.env], and to any other object, only
    through parseDecryptEvalExpand and inject: in a world where these two
    leave the heap as it is, the heap after the loop over any plan is the
    heap before it. *)
Theorem run_writes_through_helpers_only (plan : list Env) (r : Run) (h : Heap) :
  (∀ h src privateKey l, (parseDecryptEvalExpand W h src privateKey l).1 = h) →
  (∀ h target parsed overwrite ambient,
     (inject W h target parsed overwrite ambient).1 = h) →
  (run_loop W plan r h).2.2 = h.
Proof.
  intros Hpdee Hinj. revert r h.
  induction plan as [|env plan IH]; intros r h; simpl; [done|].
  pose proof (run_env_heap env r h Hpdee Hinj) as Hh.
  destruct (run_env W env r h) as [[[]|e] [r' h']]; simpl in *; [|done].
  subst h'. apply IH.
Qed.

Lemma run_env_file_rows (env : Env) (r : Run) (h : Heap) :
  (∀ row, row ∈ processedEnvs r → row_type row ≠ TYPE_ENV →
          is_Some (row_parsed row) →
          ∃ p, row_filepath row = Some p ∧ p ∈ readableFilepaths r) →
  ∀ row, row ∈ processedEnvs (run_env W env r h).2.1 → row_type row ≠ TYPE_ENV →
         is_Some (row_parsed row) →
         ∃ p, row_filepath row = Some p ∧
              p ∈ readableFilepaths (run_env W env r h).2.1.
Proof.
  intros Hinv row.
  assert (Hold : ∀ q, row ∈ processedEnvs r → row_type row ≠ TYPE_ENV →
            is_Some (row_parsed row) →
            ∃ p, row_filepath row = Some p ∧ p ∈ set_add q (readableFilepaths r)).
  { intros q Hin Ht Hp. destruct (Hinv row Hin Ht Hp) as (p & Hf & Hp').
    exists p. split; [done|]. apply elem_of_set_add. auto. }
  handler_cases; try (by apply Hinv); try (by apply Hold);
    (intros [Hin| ->%list_elem_of_singleton]%elem_of_app;
     [by (apply Hinv || apply Hold)|]);
    simpl; intros Ht Hp; try done; try (by apply is_Some_None in Hp);
    eexists; (split; [reflexivity|]); apply elem_of_set_add; auto.
Qed.

Lemma run_loop_file_rows (plan : list Env) (r : Run) (h : Heap) :
  (∀ row, row ∈ processedEnvs r → row_type row ≠ TYPE_ENV →
          is_Some (row_parsed row) →
          ∃ p, row_filepath row = Some p ∧ p ∈ readableFilepaths r) →
  ∀ row, row ∈ processedEnvs (run_loop W plan r h).2.1 → row_type row ≠ TYPE_ENV →
         is_Some (row_parsed row) →
         ∃ p, row_filepath row = Some p ∧
              p ∈ readableFilepaths (run_loop W plan r h).2.1.
Proof.
  revert r h. induction plan as [|env plan IH]; intros r h Hinv; simpl; [done|].
  pose proof (run_env_file_rows env r h Hinv) as Hinv'.
  destruct (run_env W env r h) as [[[]|e] [r' h']]; simpl in *; [|done].
  by apply IH.
Qed.

(** X19: in the report of a run that completes, every File or Vault record
    that has [parsed] has its [filepath] in [readableFilepaths]. *)
Theorem parsed_files_are_readable (callerEnvs : list Env) (overload : bool)
    (DOTENV_KEY : jsstring) (processEnv : loc) (h : Heap) (report : Report) :
  (run W (new_Run W callerEnvs overload DOTENV_KEY processEnv h) h).1 = Ok report →
  ∀ row, row ∈ rep_processedEnvs report → row_type row ≠ TYPE_ENV →
         is_Some (row_parsed row) →
         ∃ p, row_filepath row = Some p ∧ p ∈ rep_readableFilepaths report.
Proof.
  unfold run. set (r := new_Run W callerEnvs overload DOTENV_KEY processEnv h).
  pose proof (run_loop_file_rows (envs r) r h) as Hinv.
  destruct (run_loop W (envs r) r h) as [[[]|e] [r' h']]; simpl in *; [|done].
  intros [= <-]. apply Hinv. intros row []%elem_of_nil.
Qed.

(** X20: with no source from the caller, an empty [DOTENV_KEY], no name of
    [process.env] that starts with [DOTENV_PRIVATE_KEY] and no [.env] file,
    [run] does not throw: its report has one record, of the File source
    [.env], with the error [MISSING_ENV_FILE] and nothing parsed, and its
    three sets are empty. *)
Theorem default_plan_without_env_file (overload : bool) (processEnv : loc)
    (h : Heap) :
  Forall (λ name, startsWith name (js "DOTENV_PRIVATE_KEY") = false)
         (obj_keys (h !!! processEnv)) →
  file_missing W (js ".env") →
  ∃ row,
    (run W (new_Run W [] overload [] processEnv h) h).1
    = Ok (mkReport [row] [] [] []) ∧
    row_type row = TYPE_ENV_FILE ∧ row_filepath row = Some (js ".env") ∧
    row_parsed row = None ∧
    row_error row = Some (MISSING_ENV_FILE (js ".env") (path_resolve W (js ".env"))).
Proof.
  intros Hnames (e & Hcode & Hmissing).
  unfold run, new_Run. rewrite (filter_none _ _ Hnames).
  unfold _determineEnvs. cbn [length Nat.leb Nat.ltb envs DEFAULT_ENVS run_loop].
  rewrite run_env_file by done. cbn [value]. unfold _injectEnvFile.
  destruct Hmissing as [Hd|(encoding & Hd & Hr)]; rewrite Hd, ?Hr; simpl;
    rewrite decide_True by done; eexists; split_and!; reflexivity.
Qed.

End State.

Lemma run_writes_through_helpers_only_witness :
  (run_loop
     (with_inject (Demo.world Demo.vault_files)
        (λ h _ parsed _ _, (h, Ok (mkInjectOut parsed []))))
     [mkEnv TYPE_ENV_FILE (js ".env"); mkEnv TYPE_ENV (js "A=2")]
     (new_Run (Demo.world Demo.vault_files) [] false [] 0 (Demo.heap_of []))
     (Demo.heap_of [(js "A", js "1")])).2.2
  = Demo.heap_of [(js "A", js "1")].
Proof.
  apply (run_writes_through_helpers_only
           (with_inject (Demo.world Demo.vault_files)
              (λ h _ parsed _ _, (h, Ok (mkInjectOut parsed []))))).
  - intros h src privateKey l. by destruct src.
  - done.
Defined.

Lemma parsed_files_are_readable_witness :
  ∃ report,
    (run (Demo.world Demo.vault_files)
         (new_Run (Demo.world Demo.vault_files) [] false [] 0 (Demo.heap_of []))
         (Demo.heap_of [])).1 = Ok report ∧
    ∀ row, row ∈ rep_processedEnvs report → row_type row ≠ TYPE_ENV →
           is_Some (row_parsed row) →
           ∃ p, row_filepath row = Some p ∧ p ∈ rep_readableFilepaths report.
Proof.
  eexists. split; [vm_compute; reflexivity|].
  apply (parsed_files_are_readable (Demo.world Demo.vault_files) [] false [] 0
           (Demo.heap_of [])).
  vm_compute. reflexivity.
Defined.

Lemma default_plan_without_env_file_witness :
  ∃ row,
    (run (Demo.world []) (new_Run (Demo.world []) [] false [] 0 (Demo.heap_of []))
         (Demo.heap_of [])).1
    = Ok (mkReport [row] [] [] []) ∧
    row_error row = Some (MISSING_ENV_FILE (js ".env") (js "/app/.env")).
Proof.
  destruct (default_plan_without_env_file (Demo.world []) false 0 (Demo.heap_of []))
    as (row & Hrun & _ & _ & _ & Herr).
  - vm_compute. constructor.
  - exists Demo.ENOENT. split; [reflexivity|]. left. reflexivity.
  - exists row. split; [exact Hrun|exact Herr].
Defined.
